(** * Secure storage engine of EnterpriseEncryptionModule

    A shallow embedding of the encryption module (class
    [EnterpriseEncryptionModule]): the compression pass, the envelope
    encryption and decryption, the key-value wrappers and the
    initialisation, together with the browser primitives they call.

    Conventions.
    - A JavaScript string is the list of its UTF-16 code units ([jsstring]).
    - A [Uint8Array] is a [list byte].
    - A call that can throw returns an [Outcome]; [try]/[catch] is written
      out as a [match] on it.
    - Methods that touch [this], [localStorage], the random source or the
      console are functions in the state monad [M] over [Machine]. *)

From Stdlib Require Import NArith ZArith Lia ZifyNat ZifyN Ascii String DecimalString.
From Stdlib.Strings Require Import Byte.
From stdpp Require Import base option list gmap fin_maps numbers.

Set Default Proof Using "Type".
Local Open Scope N_scope.

(** ** JavaScript strings and exceptions *)

(** A string is a sequence of 16-bit code units. *)
Abbreviation jsstring := (list N).

(** [jstr "abc"] is the JavaScript literal ["abc"] (ASCII literals only). *)
Definition jstr (s : string) : jsstring :=
  map N_of_ascii (list_ascii_of_string s).

(** The exceptions the module can meet. *)
Inductive JsError : Type :=
  | NotInitializedError   (* new Error("Encryption module not initialized...") *)
  | TypeError             (* property read on undefined, null key *)
  | InvalidCharacterError (* DOMException of btoa / atob *)
  | OperationError.       (* DOMException of crypto.subtle.decrypt *)

Inductive Outcome (A : Type) : Type :=
  | Ok (a : A)
  | Throw (e : JsError).
Arguments Ok {A} a.
Arguments Throw {A} e.

(** [String.fromCharCode(c)]: the argument goes through ToUint16. *)
Definition ToUint16 (n : N) : N := n mod 65536.

#[global] Instance byte_eq_decision : EqDecision byte := Byte.byte_eq_dec.

(** Writing a number into a [Uint8Array] slot keeps its low 8 bits. *)
Definition byte_of_N (n : N) : byte :=
  match Byte.of_N (n mod 256) with
  | Some b => b
  | None => x00
  end.

(** ** Base64: [btoa] and [atob]

    [btoa] throws on a code unit above U+00FF and otherwise encodes the
    bytes; [atob] is the forgiving-base64 decode: ASCII whitespace is
    dropped, one or two trailing [=] are removed when the length is a
    multiple of four, a length of 1 modulo 4 or a character outside the
    alphabet fails, and the bits left over in the last group are dropped. *)
Module Base64.

Definition pad : N := 61. (* "=" *)

Definition char_of_sextet (s : N) : N :=
  if s <? 26 then 65 + s
  else if s <? 52 then 97 + (s - 26)
  else if s <? 62 then 48 + (s - 52)
  else if s =? 62 then 43
  else 47.

Definition sextet_of_char (c : N) : option N :=
  if (65 <=? c) && (c <=? 90) then Some (c - 65)
  else if (97 <=? c) && (c <=? 122) then Some (c - 97 + 26)
  else if (48 <=? c) && (c <=? 57) then Some (c - 48 + 52)
  else if c =? 43 then Some 62
  else if c =? 47 then Some 63
  else None.

(** Three bytes fill four sextets; a last group of one or two bytes
    fills two or three, its spare low bits being zero. *)
Fixpoint sextets_of_bytes (l : list N) : list N :=
  match l with
  | a :: b :: c :: r =>
      [a / 4; (a mod 4) * 16 + b / 16; (b mod 16) * 4 + c / 64; c mod 64]
        ++ sextets_of_bytes r
  | [a; b] => [a / 4; (a mod 4) * 16 + b / 16; (b mod 16) * 4]
  | [a] => [a / 4; (a mod 4) * 16]
  | [] => []
  end.

Fixpoint bytes_of_sextets (l : list N) : list N :=
  match l with
  | s1 :: s2 :: s3 :: s4 :: r =>
      [s1 * 4 + s2 / 16; (s2 mod 16) * 16 + s3 / 4; (s3 mod 4) * 64 + s4]
        ++ bytes_of_sextets r
  | [s1; s2; s3] => [s1 * 4 + s2 / 16; (s2 mod 16) * 16 + s3 / 4]
  | [s1; s2] => [s1 * 4 + s2 / 16]
  | _ => []
  end.

Definition padding (n : nat) : jsstring :=
  match (n mod 3)%nat with
  | 1%nat => [pad; pad]
  | 2%nat => [pad]
  | _ => []
  end.

Definition encode (bytes : list N) : jsstring :=
  map char_of_sextet (sextets_of_bytes bytes) ++ padding (length bytes).

Definition is_ascii_whitespace (c : N) : bool :=
  (c =? 9) || (c =? 10) || (c =? 12) || (c =? 13) || (c =? 32).

(** Remove a trailing [=], if there is one. *)
Definition drop_last_pad (s : jsstring) : jsstring :=
  match list.last s with
  | Some c => if c =? pad then removelast s else s
  | None => s
  end.

(** Remove one or two trailing [=] when the length is a multiple of 4. *)
Definition strip_padding (s : jsstring) : jsstring :=
  if (length s mod 4 =? 0)%nat then drop_last_pad (drop_last_pad s) else s.
End Base64.

(** [btoa(s)] *)
Definition is_latin1 (c : N) : bool := c <=? 255.

Definition btoa (s : jsstring) : Outcome jsstring :=
  if forallb is_latin1 s then Ok (Base64.encode s) else Throw InvalidCharacterError.

(** [atob(s)] *)
Definition atob (s : jsstring) : Outcome jsstring :=
  let s := filter (λ c, Base64.is_ascii_whitespace c = false) s in
  let s := Base64.strip_padding s in
  if (length s mod 4 =? 1)%nat then Throw InvalidCharacterError
  else match mapM Base64.sextet_of_char s with
       | None => Throw InvalidCharacterError
       | Some sx => Ok (Base64.bytes_of_sextets sx)
       end.

(** ** The compression pass *)

(** What [output.push(...)] can receive in [compress]: a number, or a
    value that [String.fromCharCode] turns into NaN (an inherited method
    of [Object.prototype], or [undefined]). *)
Inductive Pushed : Type :=
  | PNum (n : N)
  | PNaN.

Definition charCode_of_pushed (p : Pushed) : N :=
  match p with
  | PNum n => ToUint16 n
  | PNaN => 0
  end.

(** [String.fromCharCode.apply(null, output)] *)
Definition String_fromCharCode (output : list Pushed) : jsstring :=
  map charCode_of_pushed output.

(** The property names every [{}] inherits from [Object.prototype]. *)
Definition Object_prototype_keys : list jsstring :=
  map jstr
    ["constructor"; "__defineGetter__"; "__defineSetter__"; "hasOwnProperty";
     "__lookupGetter__"; "__lookupSetter__"; "isPrototypeOf";
     "propertyIsEnumerable"; "toString"; "valueOf"; "__proto__";
     "toLocaleString"]%string.

(** [dict[k]] on the object literal [dict = {}] of [compress]: an own
    property (a code), an inherited one, or [undefined] ([None]). *)
Definition dict_get (dict : gmap jsstring N) (k : jsstring) : option Pushed :=
  match dict !! k with
  | Some c => Some (PNum c)
  | None => if bool_decide (k ∈ Object_prototype_keys) then Some PNaN else None
  end.

(** [dict[k] = code]: assigning a number to [__proto__] is ignored. *)
Definition dict_set (dict : gmap jsstring N) (k : jsstring) (code : N)
  : gmap jsstring N :=
  if bool_decide (k = jstr "__proto__") then dict else <[k := code]> dict.

(** [phrase.length > 1 ? dict[phrase] : phrase.charCodeAt(0)] *)
Definition emitted (dict : gmap jsstring N) (phrase : jsstring) : Pushed :=
  if (1 <? length phrase)%nat then
    match dict_get dict phrase with
    | Some p => p
    | None => PNaN
    end
  else
    match phrase with
    | c :: _ => PNum c
    | [] => PNaN
    end.

(** The loop state of [compress]: [dict], [output], [phrase], [code]. *)
Record CompressState : Type := mkCS {
  cs_dict : gmap jsstring N;
  cs_output : list Pushed;
  cs_phrase : jsstring;
  cs_code : N
}.

(** One iteration of the [for] loop, on the character [data[i]]. *)
Definition compress_step (st : CompressState) (currChar : N) : CompressState :=
  let combined := cs_phrase st ++ [currChar] in
  match dict_get (cs_dict st) combined with
  | Some _ =>
      mkCS (cs_dict st) (cs_output st) combined (cs_code st)
  | None =>
      mkCS (dict_set (cs_dict st) combined (cs_code st))
           (cs_output st ++ [emitted (cs_dict st) (cs_phrase st)])
           [currChar]
           (cs_code st + 1)
  end.

(** [compress(data)].  On the empty string [data[0]] is [undefined], the
    loop does not run and [phrase.length] throws a TypeError. *)
Definition compress (data : jsstring) : Outcome jsstring :=
  match data with
  | [] => Throw TypeError
  | c0 :: rest =>
      let st := fold_left compress_step rest (mkCS ∅ [] [c0] 256) in
      let output := cs_output st ++ [emitted (cs_dict st) (cs_phrase st)] in
      btoa (String_fromCharCode output)
  end.

(** The loop state of [decompress]: [dict], [code], [phrase], [output]. *)
Record DecompressState : Type := mkDS {
  ds_dict : gmap N jsstring;
  ds_code : N;
  ds_phrase : jsstring;
  ds_output : list jsstring
}.

(** [s[0]] used in a string concatenation: [undefined] prints itself. *)
Definition first_char (s : jsstring) : jsstring :=
  match s with
  | c :: _ => [c]
  | [] => jstr "undefined"
  end.

(** One iteration of the decoder loop, on the code [codes[i]]. *)
Definition decompress_step (st : DecompressState) (currCode : N)
  : DecompressState :=
  let entry :=
    match ds_dict st !! currCode with
    | Some (c :: e) => c :: e                     (* truthy dict[currCode] *)
    | _ =>
        if currCode =? ds_code st
        then ds_phrase st ++ first_char (ds_phrase st)
        else [ToUint16 currCode]
    end in
  mkDS (<[ds_code st := ds_phrase st ++ first_char entry]> (ds_dict st))
       (ds_code st + 1)
       entry
       (ds_output st ++ [entry]).

(** The body of the [try] block of [decompress]. *)
Definition decompress_try (compressed : jsstring) : Outcome jsstring :=
  match atob compressed with
  | Throw e => Throw e
  | Ok data =>
      let codes := data in
      (* String.fromCharCode(codes[0]); codes[0] is undefined on no input *)
      let phrase := [match codes !! 0%nat with Some c => ToUint16 c | None => 0 end] in
      let st := fold_left decompress_step (drop 1 codes) (mkDS ∅ 256 phrase [phrase]) in
      Ok (concat (ds_output st))
  end.

(** [decompress(compressed)]: any exception returns the input as it is. *)
Definition decompress (compressed : jsstring) : Outcome jsstring :=
  match decompress_try compressed with
  | Ok s => Ok s
  | Throw _ => Ok compressed
  end.

(** ** The browser primitives

    The module calls [JSON], [String], [TextEncoder]/[TextDecoder] and
    [crypto.subtle]; they are not part of the repository and are taken as
    an interface.  [Value] is the type of the values handed to [encrypt]. *)
Class Platform : Type := {
  Value : Type;
  (** [typeof v === "object"] *)
  typeof_object : Value → bool;
  JSON_stringify : Value → jsstring;
  (** [String(v)] *)
  ToString : Value → jsstring;
  (** [JSON.parse]; [None] is its SyntaxError *)
  JSON_parse : jsstring → option Value;
  (** a string as a value, and [null] *)
  string_value : jsstring → Value;
  null_value : Value;
  TextEncoder_encode : jsstring → list byte;
  TextDecoder_decode : list byte → jsstring;
  CryptoKey : Type;
  (** PBKDF2 with SHA-256: password, salt, iterations, key length in bits *)
  PBKDF2_SHA256 : list byte → list byte → N → N → CryptoKey;
  (** AES-GCM: key, iv, tag length in bits, plaintext; gives the
      ciphertext and the tag *)
  AES_GCM_encrypt : CryptoKey → list byte → N → list byte → list byte * list byte;
  (** AES-GCM: key, iv, tag length in bits, ciphertext, tag; [None] when
      the tag does not verify *)
  AES_GCM_decrypt : CryptoKey → list byte → N → list byte → list byte → option (list byte)
}.

(** What a run leaves behind, in order: the calls to the random source, to
    [localStorage], to [crypto.subtle] and to the console. *)
Inductive Event : Type :=
  | EvGetRandomValues (n : nat)
  | EvSetItem (k v : jsstring)
  | EvDeriveKey (password salt : list byte) (iterations : N)
  | EvEncrypt (iv plaintext : list byte)
  | EvDecrypt (iv data : list byte)
  | EvConsoleLog
  | EvConsoleError (e : JsError).

Section Engine.
Context `{P : Platform}.

(** The fields of the instance that change, and the browser state
    around it. [entropy] is the byte stream of
    [crypto.getRandomValues], [drawn] how much of it has been used. *)
Record Machine : Type := mkMachine {
  isInitialized : bool;
  masterKey : option CryptoKey;
  localStorage : gmap jsstring jsstring;
  entropy : nat → byte;
  drawn : nat;
  trace : list Event
}.

(** The constants set by the constructor. *)
Definition keyDerivationIterations : N := 100000.
Definition saltLength : nat := 32.
Definition ivLength : nat := 12.
Definition tagLength : N := 16.

(** The instance after [new EnterpriseEncryptionModule()]. *)
Definition constructor (storage : gmap jsstring jsstring) (rnd : nat → byte)
  : Machine :=
  mkMachine false None storage rnd 0 [].

(** *** Computations: state and exceptions *)
Definition M (A : Type) : Type := Machine → Outcome A * Machine.

#[global] Instance M_ret : MRet M := λ A a s, (Ok a, s).
#[global] Instance M_bind : MBind M := λ A B f m s,
  match m s with
  | (Ok a, s') => f a s'
  | (Throw e, s') => (Throw e, s')
  end.

Definition throw {A} (e : JsError) : M A := λ s, (Throw e, s).

(** A pure call that may throw. *)
Definition lift {A} (o : Outcome A) : M A := λ s, (o, s).

(** [try { body } catch (error) { handler(error) }] *)
Definition try_catch {A} (body : M A) (handler : JsError → M A) : M A :=
  λ s, match body s with
       | (Ok a, s') => (Ok a, s')
       | (Throw e, s') => handler e s'
       end.

Definition get : M Machine := λ s, (Ok s, s).

(** The machine with more events in its trace. *)
Definition logged (s : Machine) (evs : list Event) : Machine :=
  mkMachine (isInitialized s) (masterKey s) (localStorage s)
            (entropy s) (drawn s) (trace s ++ evs).

Definition emit (ev : Event) : M unit := λ s, (Ok tt, logged s [ev]).

Definition console_log : M unit := emit EvConsoleLog.
Definition console_error (e : JsError) : M unit := emit (EvConsoleError e).

(** [localStorage.getItem(k)]; [None] is [null]. *)
Definition getItem (k : jsstring) : M (option jsstring) := λ s,
  (Ok (localStorage s !! k), s).

(** [localStorage.setItem(k, v)] *)
Definition setItem (k v : jsstring) : M unit := λ s,
  (Ok tt, mkMachine (isInitialized s) (masterKey s) (<[k := v]> (localStorage s))
                    (entropy s) (drawn s) (trace s ++ [EvSetItem k v])).

(** The next [n] bytes of the random stream of a machine. *)
Definition next_random (s : Machine) (n : nat) : list byte :=
  map (λ i, entropy s (drawn s + i)%nat) (seq 0 n).

(** [crypto.getRandomValues(new Uint8Array(n))] *)
Definition getRandomValues (n : nat) : M (list byte) := λ s,
  (Ok (next_random s n),
   mkMachine (isInitialized s) (masterKey s) (localStorage s)
             (entropy s) (drawn s + n)%nat (trace s ++ [EvGetRandomValues n])).

(** [!x] on a value that is a string or [null] *)
Definition falsy (x : option jsstring) : bool :=
  match x with
  | None | Some [] => true
  | Some (_ :: _) => false
  end.

(** *** Utility functions *)

Definition arrayBufferToBase64 (bytes : list byte) : Outcome jsstring :=
  let binary := map Byte.to_N bytes in
  btoa binary.

Definition base64ToArrayBuffer (base64 : jsstring) : Outcome (list byte) :=
  match atob base64 with
  | Throw e => Throw e
  | Ok binary => Ok (map byte_of_N binary)
  end.

(** *** Key derivation and initialisation *)

Definition generateSalt : M jsstring :=
  salt ← getRandomValues saltLength;
  lift (arrayBufferToBase64 salt).

Definition generateIV : M (list byte) :=
  getRandomValues ivLength.

Definition deriveKey (password salt : jsstring) : M CryptoKey :=
  let passwordBuffer := TextEncoder_encode password in
  saltBuffer ← lift (base64ToArrayBuffer salt);
  emit (EvDeriveKey passwordBuffer saltBuffer keyDerivationIterations);;
  mret (PBKDF2_SHA256 passwordBuffer saltBuffer keyDerivationIterations 256).

Definition enc_salt : jsstring := jstr "enc_salt".

(** [this.masterKey = key; this.isInitialized = true] *)
Definition set_ready (key : CryptoKey) : M unit := λ s,
  (Ok tt, mkMachine true (Some key) (localStorage s) (entropy s) (drawn s) (trace s)).

Definition initialize (masterPassword : jsstring) : M bool :=
  try_catch
    (stored ← getItem enc_salt;
     salt ← (if falsy stored
             then salt ← generateSalt;
                  setItem enc_salt salt;;
                  mret salt
             else mret (default [] stored));
     key ← deriveKey masterPassword salt;
     set_ready key;;
     console_log;;
     mret true)
    (λ error, console_error error;; mret false).

(** *** Encryption and decryption *)

(** [crypto.subtle.encrypt({name: "AES-GCM", iv, tagLength}, key, data)]:
    the result is the ciphertext followed by the tag; a [null] key is
    rejected with a TypeError. *)
Definition subtle_encrypt (iv : list byte) (tagLengthBits : N)
    (key : option CryptoKey) (data : list byte) : M (list byte) :=
  match key with
  | None => throw TypeError
  | Some k =>
      emit (EvEncrypt iv data);;
      let '(c, t) := AES_GCM_encrypt k iv tagLengthBits data in
      mret (c ++ t)
  end.

(** [crypto.subtle.decrypt(...)]: the tag is the last [tagLength] bits of
    the data; data shorter than the tag, or a tag that does not verify,
    is an OperationError. *)
Definition subtle_decrypt (iv : list byte) (tagLengthBits : N)
    (key : option CryptoKey) (data : list byte) : M (list byte) :=
  match key with
  | None => throw TypeError
  | Some k =>
      emit (EvDecrypt iv data);;
      let tagBytes := N.to_nat (tagLengthBits / 8) in
      if (length data <? tagBytes)%nat then throw OperationError
      else
        let n := (length data - tagBytes)%nat in
        match AES_GCM_decrypt k iv tagLengthBits (take n data) (drop n data) with
        | Some plaintext => mret plaintext
        | None => throw OperationError
        end
  end.

(** [typeof data === "object" ? JSON.stringify(data) : String(data)] *)
Definition dataString (data : Value) : jsstring :=
  if typeof_object data then JSON_stringify data else ToString data.

(** [compress ? this.compress(dataString) : dataString] *)
Definition processed (data : Value) (compress_flag : bool) : Outcome jsstring :=
  if compress_flag then compress (dataString data) else Ok (dataString data).

Definition encrypt (data : Value) (compress_flag : bool) : M jsstring :=
  s ← get;
  if negb (isInitialized s) then throw NotInitializedError
  else
    try_catch
      (processedData ← lift (processed data compress_flag);
       iv ← generateIV;
       let dataBuffer := TextEncoder_encode processedData in
       s ← get;
       encryptedBuffer ← subtle_encrypt iv (tagLength * 8) (masterKey s) dataBuffer;
       let combined := iv ++ encryptedBuffer in
       lift (arrayBufferToBase64 combined))
      (λ error, console_error error;; throw error).

(** [try { return JSON.parse(text) } catch { return text }] *)
Definition parse_or_raw (text : jsstring) : Value :=
  match JSON_parse text with
  | Some v => v
  | None => string_value text
  end.

Definition decrypt (encryptedData : jsstring) (decompress_flag : bool) : M Value :=
  s ← get;
  if negb (isInitialized s) then throw NotInitializedError
  else
    try_catch
      (combined ← lift (base64ToArrayBuffer encryptedData);
       let iv := take ivLength combined in
       let ciphertext := drop ivLength combined in
       s ← get;
       decryptedBuffer ← subtle_decrypt iv (tagLength * 8) (masterKey s) ciphertext;
       let decryptedData := TextDecoder_decode decryptedBuffer in
       decryptedData ← lift (if decompress_flag then decompress decryptedData
                             else Ok decryptedData);
       mret (parse_or_raw decryptedData))
      (λ error, console_error error;; throw error).

(** *** The key-value wrappers *)

(** [`sec_${key}`] *)
Definition sec_ (key : jsstring) : jsstring := jstr "sec_" ++ key.

Definition secureStore (key : jsstring) (value : Value) : M bool :=
  try_catch
    (encrypted ← encrypt value true;
     setItem (sec_ key) encrypted;;
     console_log;;
     mret true)
    (λ error, console_error error;; mret false).

Definition secureRetrieve (key : jsstring) : M Value :=
  try_catch
    (encrypted ← getItem (sec_ key);
     if falsy encrypted then mret null_value
     else
       decrypted ← decrypt (default [] encrypted) true;
       console_log;;
       mret decrypted)
    (λ error, console_error error;; mret null_value).

End Engine.

(** The two-character substrings of a string, left to right. *)
Fixpoint adjacent_pairs (s : jsstring) : list jsstring :=
  match s with
  | a :: r =>
      match r with
      | b :: _ => [a; b] :: adjacent_pairs r
      | [] => []
      end
  | [] => []
  end.

(** ** What the module relies on from the platform *)
Section Laws.
Context `{P : Platform}.

(** AES-GCM returns a tag of the length it was asked for. *)
Definition AES_GCM_tag_length : Prop :=
  ∀ k iv bits pt,
    bits mod 8 = 0 →
    N.of_nat (length (AES_GCM_encrypt k iv bits pt).2) * 8 = bits.

(** AES-GCM opens what it sealed under the same key and nonce. *)
Definition AES_GCM_opens : Prop :=
  ∀ k iv bits pt,
    AES_GCM_decrypt k iv bits (AES_GCM_encrypt k iv bits pt).1
                    (AES_GCM_encrypt k iv bits pt).2 = Some pt.

(** UTF-8 is the identity on ASCII text. *)
Definition UTF8_ascii : Prop :=
  ∀ s : jsstring,
    Forall (λ c, c < 128) s → TextDecoder_decode (TextEncoder_encode s) = s.

(** The text survives the trip through [TextEncoder] and
    [TextDecoder] (no lone surrogate, no leading byte order mark). *)
Definition UTF8_stable (text : jsstring) : Prop :=
  TextDecoder_decode (TextEncoder_encode text) = text.

(** The conditions under which the compression pass is reversible on a
    text: it is not empty, its characters fit in 8 bits, and no
    two-character substring occurs twice. *)
Definition compressible (text : jsstring) : Prop :=
  text ≠ [] ∧ Forall (λ c, c < 256) text ∧ NoDup (adjacent_pairs text).

End Laws.

(** ** The stored record, in the words of the specification

    The specification describes the persisted record as
    [{ envelope: base64-string, compressed: boolean }].  [record_text] is
    the JSON text of such a record. *)
Definition dquote : jsstring := [34].

Definition record_text (envelope : jsstring) (compressed : bool) : jsstring :=
  jstr "{" ++ dquote ++ jstr "envelope" ++ dquote ++ jstr ":"
    ++ dquote ++ envelope ++ dquote ++ jstr ","
    ++ dquote ++ jstr "compressed" ++ dquote ++ jstr ":"
    ++ jstr (if compressed then "true" else "false") ++ jstr "}".

Definition has_record_shape (stored : jsstring) : Prop :=
  ∃ envelope compressed, stored = record_text envelope compressed.

(** A character of the base64 alphabet, or the padding sign. *)
Definition is_base64_char (c : N) : bool :=
  match Base64.sextet_of_char c with
  | Some _ => true
  | None => c =? Base64.pad
  end.

(** ** A reference platform

    An executable instance of the interface, on which the methods can be
    run: values are [null], booleans, integers and strings; the text
    codec is UTF-8; the cipher is a keyed additive stream with a checksum
    tag.  It stands in for the browser where a statement is evaluated on
    a concrete input, and agrees with it on the texts used there (ASCII
    text, integer and string literals). *)
Module Reference.

Inductive RValue : Type :=
  | RNull
  | RBool (b : bool)
  | RNum (z : Z)
  | RStr (s : jsstring).

Definition r_typeof_object (v : RValue) : bool :=
  match v with
  | RNull => true
  | _ => false
  end.

Definition decimal (z : Z) : jsstring :=
  jstr (DecimalString.NilZero.string_of_int (Z.to_int z)).

Definition r_ToString (v : RValue) : jsstring :=
  match v with
  | RNull => jstr "null"
  | RBool true => jstr "true"
  | RBool false => jstr "false"
  | RNum z => decimal z
  | RStr s => s
  end.

(** [JSON.stringify] is only reached on a value whose [typeof] is
    ["object"], which here is [null]. *)
Definition r_JSON_stringify (v : RValue) : jsstring :=
  match v with
  | RStr s => [34] ++ s ++ [34]
  | _ => r_ToString v
  end.

Definition is_digit (c : N) : bool := (48 <=? c) && (c <=? 57).

Definition digits_value (ds : jsstring) : Z :=
  fold_left (λ acc c, acc * 10 + Z.of_N (c - 48))%Z ds 0%Z.

(** [0] or a digit sequence without a leading zero *)
Definition parse_natural (s : jsstring) : option Z :=
  match s with
  | [] => None
  | [48] => Some 0%Z
  | 48 :: _ => None
  | _ => if forallb is_digit s then Some (digits_value s) else None
  end.

(** A character allowed unescaped inside a JSON string literal. *)
Definition is_plain_char (c : N) : bool :=
  (32 <=? c) && negb (c =? 34) && negb (c =? 92).

Definition parse_string_body (s : jsstring) : option RValue :=
  match list.last s with
  | Some 34 =>
      let body := removelast s in
      if forallb is_plain_char body then Some (RStr body) else None
  | _ => None
  end.

(** [JSON.parse] on a literal without white space: [null], [true],
    [false], an integer, or a string without escapes. *)
Definition r_JSON_parse (s : jsstring) : option RValue :=
  if bool_decide (s = jstr "null") then Some RNull
  else if bool_decide (s = jstr "true") then Some (RBool true)
  else if bool_decide (s = jstr "false") then Some (RBool false)
  else match s with
       | 34 :: r => parse_string_body r
       | 45 :: r => (λ z, RNum (- z)%Z) <$> parse_natural r
       | _ => RNum <$> parse_natural s
       end.

(** UTF-8 of one code point. *)
Definition utf8_of_code_point (c : N) : list byte :=
  if c <? 128 then [byte_of_N c]
  else if c <? 2048 then [byte_of_N (192 + c / 64); byte_of_N (128 + c mod 64)]
  else if c <? 65536 then
    [byte_of_N (224 + c / 4096); byte_of_N (128 + (c / 64) mod 64);
     byte_of_N (128 + c mod 64)]
  else
    [byte_of_N (240 + c / 262144); byte_of_N (128 + (c / 4096) mod 64);
     byte_of_N (128 + (c / 64) mod 64); byte_of_N (128 + c mod 64)].

Definition is_high_surrogate (c : N) : bool := (55296 <=? c) && (c <=? 56319).
Definition is_low_surrogate (c : N) : bool := (56320 <=? c) && (c <=? 57343).

(** [new TextEncoder().encode(s)]: a surrogate pair is one code point, a
    lone surrogate becomes U+FFFD. *)
Fixpoint r_encode (s : jsstring) : list byte :=
  match s with
  | [] => []
  | c :: r =>
      if is_high_surrogate c then
        match r with
        | d :: r' =>
            if is_low_surrogate d
            then utf8_of_code_point (65536 + (c - 55296) * 1024 + (d - 56320))
                   ++ r_encode r'
            else utf8_of_code_point 65533 ++ r_encode r
        | [] => utf8_of_code_point 65533
        end
      else if is_low_surrogate c then utf8_of_code_point 65533 ++ r_encode r
      else utf8_of_code_point c ++ r_encode r
  end.

Definition is_continuation (b : N) : bool := (128 <=? b) && (b <=? 191).

(** The code units of one code point. *)
Definition code_units (cp : N) : jsstring :=
  if cp <? 65536 then [cp]
  else [55296 + (cp - 65536) / 1024; 56320 + (cp - 65536) mod 1024].

(** UTF-8 decoding with replacement: a byte that does not start a
    well-formed sequence becomes U+FFFD. *)
Fixpoint decode_bytes (l : list byte) : jsstring :=
  match l with
  | [] => []
  | b0 :: r =>
      let n0 := Byte.to_N b0 in
      if n0 <? 128 then n0 :: decode_bytes r
      else
        match r with
        | b1 :: r1 =>
            let n1 := Byte.to_N b1 in
            if (194 <=? n0) && (n0 <=? 223) && is_continuation n1
            then ((n0 - 192) * 64 + (n1 - 128)) :: decode_bytes r1
            else
              match r1 with
              | b2 :: r2 =>
                  let n2 := Byte.to_N b2 in
                  let cp3 := (n0 - 224) * 4096 + (n1 - 128) * 64 + (n2 - 128) in
                  if (224 <=? n0) && (n0 <=? 239) && is_continuation n1
                     && is_continuation n2 && (2048 <=? cp3)
                     && negb ((55296 <=? cp3) && (cp3 <=? 57343))
                  then cp3 :: decode_bytes r2
                  else
                    match r2 with
                    | b3 :: r3 =>
                        let n3 := Byte.to_N b3 in
                        let cp4 := (n0 - 240) * 262144 + (n1 - 128) * 4096
                                   + (n2 - 128) * 64 + (n3 - 128) in
                        if (240 <=? n0) && (n0 <=? 244) && is_continuation n1
                           && is_continuation n2 && is_continuation n3
                           && (65536 <=? cp4) && (cp4 <=? 1114111)
                        then code_units cp4 ++ decode_bytes r3
                        else 65533 :: decode_bytes r
                    | [] => 65533 :: decode_bytes r
                    end
              | [] => 65533 :: decode_bytes r
              end
        | [] => [65533]
        end
  end.

(** [new TextDecoder().decode(bytes)]: a leading byte order mark is
    dropped. *)
Definition r_decode (l : list byte) : jsstring :=
  match decode_bytes l with
  | c :: r => if c =? 65279 then r else c :: r
  | [] => []
  end.

Definition sum_bytes (l : list byte) : N :=
  fold_right (λ b acc, Byte.to_N b + acc) 0 l.

(** The key is [bits / 8] bytes spun from the password and the salt. *)
Definition r_PBKDF2 (password salt : list byte) (iterations bits : N) : list byte :=
  map (λ i, byte_of_N (sum_bytes password * 31 + sum_bytes salt * 17
                        + iterations + N.of_nat i))
      (seq 0 (N.to_nat (bits / 8))).

(** Add the key stream, starting at offset [k]. *)
Fixpoint stream_add (k : N) (l : list byte) : list byte :=
  match l with
  | [] => []
  | b :: r => byte_of_N (Byte.to_N b + k) :: stream_add (k + 1) r
  end.

Fixpoint stream_sub (k : N) (l : list byte) : list byte :=
  match l with
  | [] => []
  | b :: r => byte_of_N (Byte.to_N b + 256 - k mod 256) :: stream_sub (k + 1) r
  end.

Definition r_tag (key iv : list byte) (bits : N) (c : list byte) : list byte :=
  map (λ j, byte_of_N (sum_bytes key + 3 * sum_bytes iv + 7 * sum_bytes c
                        + N.of_nat j))
      (seq 0 (N.to_nat (bits / 8))).

Definition r_encrypt (key iv : list byte) (bits : N) (pt : list byte)
  : list byte * list byte :=
  let c := stream_add (sum_bytes key + sum_bytes iv) pt in
  (c, r_tag key iv bits c).

Definition r_decrypt (key iv : list byte) (bits : N) (c t : list byte)
  : option (list byte) :=
  if bool_decide (t = r_tag key iv bits c)
  then Some (stream_sub (sum_bytes key + sum_bytes iv) c)
  else None.

Definition platform : Platform := {|
  Value := RValue;
  typeof_object := r_typeof_object;
  JSON_stringify := r_JSON_stringify;
  ToString := r_ToString;
  JSON_parse := r_JSON_parse;
  string_value := RStr;
  null_value := RNull;
  TextEncoder_encode := r_encode;
  TextDecoder_decode := r_decode;
  CryptoKey := list byte;
  PBKDF2_SHA256 := r_PBKDF2;
  AES_GCM_encrypt := r_encrypt;
  AES_GCM_decrypt := r_decrypt
|}.

(** A random stream that counts up, and one that is stuck. *)
Definition counting : nat → byte := λ i, byte_of_N (N.of_nat i * 37 + 11).
Definition stuck : nat → byte := λ _, x2a.

(** A new instance in an empty browser, and the same after
    [initialize("correct horse battery staple")]. *)
Definition fresh : @Machine platform := constructor ∅ counting.
Definition ready : @Machine platform :=
  (initialize (jstr "correct horse battery staple") fresh).2.

Definition ready_key : list byte := default [] (masterKey ready).

(** The same two with the stuck random stream. *)
Definition fresh_stuck : @Machine platform := constructor ∅ stuck.
Definition ready_stuck : @Machine platform :=
  (initialize (jstr "correct horse battery staple") fresh_stuck).2.

(** After [secureStore("k", "helo")] on the ready engine. *)
Definition stored : @Machine platform :=
  (secureStore (P:=platform) (jstr "k") (RStr (jstr "helo")) ready).2.

(** The envelopes the runs below produce. *)
Definition envelope_of (r : Outcome jsstring * @Machine platform) : jsstring :=
  match r.1 with
  | Ok envelope => envelope
  | Throw _ => []
  end.

Definition envelope_helo : jsstring :=
  envelope_of (encrypt (P:=platform) (RStr (jstr "helo")) true ready).
Definition envelope_123 : jsstring :=
  envelope_of (encrypt (P:=platform) (RStr (jstr "123")) false ready).
Definition envelope_stuck : jsstring :=
  envelope_of (encrypt (P:=platform) (RStr (jstr "123")) false ready_stuck).

(** One character of a stored envelope changed. *)
Definition tamper (envelope : jsstring) : jsstring :=
  match envelope with
  | c :: r => (if c =? 65 then 66 else 65) :: r
  | [] => []
  end.

Definition tampered_envelope : jsstring :=
  tamper (default [] (localStorage stored !! sec_ (jstr "k"))).

Definition tampered : @Machine platform :=
  mkMachine (isInitialized stored) (masterKey stored)
            (<[sec_ (jstr "k") := tampered_envelope]> (localStorage stored))
            (entropy stored) (drawn stored) (trace stored).

End Reference.

(** ** The rest of the module

    [secureDelete], [arrayBufferToHex], [generateHash], [verifyIntegrity],
    [getStats] and [restoreBackup] of the same class, and two methods of
    the security system that use the instance: [clearSensitiveData],
    which resets its key, and [storeEncryptedLogs]. *)

(** The dictionary of [compress] while no phrase has been extended yet:
    its keys have two characters and its codes start at 256. *)
Definition pairs_only (st : CompressState) : Prop :=
  256 ≤ cs_code st
  ∧ ∀ k v, cs_dict st !! k = Some v →
      length k = 2%nat ∧ 256 ≤ v ∧ v < cs_code st.

(** *** Hexadecimal *)

(** One hexadecimal digit, lower case. *)
Definition hex_digit (d : N) : N := if d <? 10 then 48 + d else 87 + d.

(** [b.toString(16)] for a byte [b] *)
Definition toString16 (n : N) : jsstring :=
  if n <? 16 then [hex_digit n] else [hex_digit (n / 16); hex_digit (n mod 16)].

(** [s.padStart(2, "0")] *)
Definition padStart2 (s : jsstring) : jsstring :=
  match s with
  | [] => [48; 48]
  | [c] => [48; c]
  | _ => s
  end.

(** [Array.from(bytes)], each byte through [toString(16)] and
    [padStart(2, "0")], joined without a separator *)
Definition arrayBufferToHex (buffer : list byte) : jsstring :=
  concat (map (λ b, padStart2 (toString16 (Byte.to_N b))) buffer).

(** The value of a hexadecimal digit, and the bytes of a hexadecimal
    string; they only serve to state that [arrayBufferToHex] loses
    nothing. *)
Definition hex_value (c : N) : N := if c <? 58 then c - 48 else c - 87.

Fixpoint bytes_of_hex (s : jsstring) : list byte :=
  match s with
  | h :: l :: r => byte_of_N (hex_value h * 16 + hex_value l) :: bytes_of_hex r
  | _ => []
  end.

Definition is_lower_hex (c : N) : bool :=
  ((48 <=? c) && (c <=? 57)) || ((97 <=? c) && (c <=? 102)).

(** [s.startsWith(prefix)] *)
Definition startsWith (prefix s : jsstring) : bool :=
  bool_decide (take (length prefix) s = prefix).

(** What [getStats] returns. *)
Record Stats : Type := mkStats {
  stats_version : jsstring;
  stats_algorithm : jsstring;
  stats_keyDerivationIterations : N;
  stats_isInitialized : bool;
  stats_secureItemsCount : nat
}.

Section EngineMore.
Context `{P : Platform}.

(** [crypto.subtle.digest("SHA-256", data)] *)
Variable SHA_256 : list byte → list byte.

(** [Object.entries(backup.data)], each value as [setItem] stores it; a
    TypeError when [backup] or [backup.data] is [null] or [undefined]. *)
Variable Object_entries_data : Value → Outcome (list (jsstring * jsstring)).

(** The constants set by the constructor. *)
Definition version : jsstring := jstr "2.0.0".
Definition algorithm : jsstring := jstr "AES-256-GCM".

(** [localStorage.removeItem(k)] *)
Definition removeItem (k : jsstring) : M unit := λ s,
  (Ok tt, mkMachine (isInitialized s) (masterKey s) (delete k (localStorage s))
                    (entropy s) (drawn s) (trace s)).

Definition secureDelete (key : jsstring) : M bool :=
  try_catch
    (randomData ← getRandomValues 1024;
     overwrite ← lift (arrayBufferToBase64 randomData);
     setItem (sec_ key) overwrite;;
     removeItem (sec_ key);;
     console_log;;
     mret true)
    (λ error, console_error error;; mret false).

Definition generateHash (data : jsstring) : jsstring :=
  let dataBuffer := TextEncoder_encode data in
  let hashBuffer := SHA_256 dataBuffer in
  arrayBufferToHex hashBuffer.

(** [actualHash === expectedHash] *)
Definition verifyIntegrity (data expectedHash : jsstring) : bool :=
  let actualHash := generateHash data in
  bool_decide (actualHash = expectedHash).

(** [Object.keys(localStorage)] *)
Definition Object_keys (storage : gmap jsstring jsstring) : list jsstring :=
  (map_to_list storage).*1.

Definition getStats (s : Machine) : Stats :=
  mkStats version algorithm keyDerivationIterations (isInitialized s)
          (length (filter (λ k, startsWith (jstr "sec_") k = true)
                          (Object_keys (localStorage s)))).

(** [Object.entries(backup.data).forEach(([key, value]) =>
      localStorage.setItem(key, value))] *)
Fixpoint setItems (entries : list (jsstring * jsstring)) : M unit :=
  match entries with
  | [] => mret tt
  | (key, value) :: rest => setItem key value;; setItems rest
  end.

Definition restoreBackup (backupData : jsstring) : M bool :=
  try_catch
    (backup ← decrypt backupData true;
     entries ← lift (Object_entries_data backup);
     setItems entries;;
     console_log;;
     mret true)
    (λ error, console_error error;; mret false).

(** [clearSensitiveData()] of the security system: the key of the
    instance is set to [null], and two tokens leave [sessionStorage]. *)
Definition clearSensitiveData (s : Machine) (sessionStorage : gmap jsstring jsstring)
  : Machine * gmap jsstring jsstring :=
  (mkMachine (isInitialized s) None (localStorage s) (entropy s) (drawn s)
             (trace s),
   delete (jstr "refresh_token") (delete (jstr "auth_token") sessionStorage)).

(** [storeEncryptedLogs()] of the security system, on its
    [activityLog]; the instance exists, so only [isInitialized] is
    tested. *)
Definition security_logs : jsstring := jstr "security_logs".

Definition storeEncryptedLogs (activityLog : Value) : M unit :=
  s ← get;
  if isInitialized s then
    encrypted ← encrypt activityLog true;
    setItem security_logs (JSON_stringify (string_value encrypted))
  else mret tt.

End EngineMore.

(** ** The activity log of the security system *)

(** The entry [logActivity] builds:
    [{ level, message, timestamp, sessionId, deviceId }].  [sessionId]
    is [null] until the system is initialised, and [deviceId] is
    [undefined] as long as there is no fingerprint. *)
Record LogEntry : Type := mkLogEntry {
  entry_level : jsstring;
  entry_message : jsstring;
  entry_timestamp : jsstring;
  entry_sessionId : option jsstring;
  entry_deviceId : option jsstring
}.

(** [logActivity] on the log: the entry is pushed, and beyond 1000
    entries the oldest one is shifted out. *)
Definition logActivity (logEntry : LogEntry) (activityLog : list LogEntry)
  : list LogEntry :=
  let pushed := activityLog ++ [logEntry] in
  if (1000 <? length pushed)%nat then tail pushed else pushed.

(** How the JSON text of a log with an entry begins: the array and its
    first object open, and the keys [level] and [message] follow in the
    order [logActivity] wrote them; [level] is the JSON text of the
    level of the first entry. *)
Definition log_head (level : jsstring) : jsstring :=
  jstr "[{" ++ dquote ++ jstr "level" ++ dquote ++ jstr ":" ++ level
    ++ jstr "," ++ dquote ++ jstr "message" ++ dquote ++ jstr ":".

(** The reference platform for the rest of the module. *)
Module ReferenceMore.
Import Reference.

(** The reference platform with the activity log among its values: an
    array of entries, whose strings have no character to escape. *)
Inductive LValue : Type :=
  | LBase (v : RValue)
  | LLog (entries : list LogEntry).

Definition quoted (s : jsstring) : jsstring := dquote ++ s ++ dquote.

Definition member (key value : jsstring) : jsstring :=
  quoted key ++ jstr ":" ++ value.

Fixpoint join_comma (l : list jsstring) : jsstring :=
  match l with
  | [] => []
  | x :: r =>
      match r with
      | [] => x
      | _ => x ++ jstr "," ++ join_comma r
      end
  end.

(** [JSON.stringify] of an entry: a member whose value is [undefined]
    is left out, [null] is written. *)
Definition entry_text (e : LogEntry) : jsstring :=
  jstr "{"
    ++ join_comma
         ([member (jstr "level") (quoted (entry_level e));
           member (jstr "message") (quoted (entry_message e));
           member (jstr "timestamp") (quoted (entry_timestamp e));
           member (jstr "sessionId")
             (match entry_sessionId e with
              | Some i => quoted i
              | None => jstr "null"
              end)]
          ++ match entry_deviceId e with
             | Some d => [member (jstr "deviceId") (quoted d)]
             | None => []
             end)
    ++ jstr "}".

Definition log_text (entries : list LogEntry) : jsstring :=
  jstr "[" ++ join_comma (map entry_text entries) ++ jstr "]".

Definition log_platform : Platform := {|
  Value := LValue;
  typeof_object := λ v, match v with
                        | LBase v => r_typeof_object v
                        | LLog _ => true
                        end;
  JSON_stringify := λ v, match v with
                         | LBase v => r_JSON_stringify v
                         | LLog entries => log_text entries
                         end;
  ToString := λ v, match v with
                   | LBase v => r_ToString v
                   | LLog entries =>
                       join_comma (map (λ _, jstr "[object Object]") entries)
                   end;
  JSON_parse := λ s, LBase <$> r_JSON_parse s;
  string_value := λ s, LBase (RStr s);
  null_value := LBase RNull;
  TextEncoder_encode := r_encode;
  TextDecoder_decode := r_decode;
  CryptoKey := list byte;
  PBKDF2_SHA256 := r_PBKDF2;
  AES_GCM_encrypt := r_encrypt;
  AES_GCM_decrypt := r_decrypt
|}.

(** The ready engine on that platform. *)
Definition ready_log : @Machine log_platform :=
  (initialize (P:=log_platform) (jstr "correct horse battery staple")
     (constructor ∅ counting)).2.

(** The log after [logActivity("CRITICAL", "Remote wipe completed")] on
    a system that was not initialised. *)
Definition wipe_entry : LogEntry :=
  mkLogEntry (jstr "CRITICAL") (jstr "Remote wipe completed")
             (jstr "2024-05-01T10:20:30.000Z") None None.

Definition wipe_log : @Value log_platform := LLog (logActivity wipe_entry []).

(** A digest that keeps the length and the sum of its input. *)
Definition r_digest (l : list byte) : list byte :=
  [byte_of_N (N.of_nat (length l)); byte_of_N (sum_bytes l)].

(** No value of the reference platform has a [data] field. *)
Definition r_entries (v : @Value platform)
  : Outcome (list (jsstring * jsstring)) :=
  Throw TypeError.

(** An instance that finds a salt that is not base64. *)
Definition bad_salt : @Machine platform :=
  constructor {[enc_salt := jstr "!!!"]} counting.

(** The salt the first instance stored. *)
Definition stored_salt : jsstring :=
  default [] (localStorage stored !! enc_salt).

(** After a second [secureStore("k", "abcd")]. *)
Definition stored_twice : @Machine platform :=
  (secureStore (P:=platform) (jstr "k") (RStr (jstr "abcd")) stored).2.

End ReferenceMore.

(** * Properties *)

(** Division and remainder by constants are left to [lia]. *)
Ltac Zify.zify_post_hook ::= Z.to_euclidean_division_equations.

(** Case analysis on every comparison of numbers in the goal. *)
Ltac n_compare :=
  repeat (match goal with
          | |- context [N.ltb ?a ?b] => destruct (N.ltb_spec a b)
          | |- context [N.leb ?a ?b] => destruct (N.leb_spec a b)
          | |- context [N.eqb ?a ?b] => destruct (N.eqb_spec a b)
          end; simpl).

Lemma list_strong_ind {A} (P : list A → Prop) :
  (∀ l, (∀ k, (length k < length l)%nat → P k) → P l) → ∀ l, P l.
Proof.
  intros step l. remember (length l) as n eqn:Hn. revert l Hn.
  induction n as [n IH] using lt_wf_ind. intros l ->.
  apply step. intros k Hk. by eapply IH.
Qed.

Lemma filter_all {A} (Q : A → Prop) `{∀ x, Decision (Q x)} (l : list A) :
  Forall Q l → filter Q l = l.
Proof.
  induction 1 as [|x l Hx _ IH]; [done|].
  rewrite filter_cons_True by done. by rewrite IH.
Qed.

Lemma forallb_Forall {A} (f : A → bool) (l : list A) :
  forallb f l = true ↔ Forall (λ x, f x = true) l.
Proof.
  induction l as [|x l IH]; simpl.
  - split; [constructor | done].
  - split.
    + intros [Hx Hl]%andb_prop. constructor; [done | by apply IH].
    + inversion_clear 1 as [|?? Hx Hl]. rewrite Hx. by apply IH.
Qed.

(** ** Base64 *)
Module Base64Facts.
Import Base64.

Lemma sextet_of_char_of_sextet s :
  s < 64 → sextet_of_char (char_of_sextet s) = Some s.
Proof.
  intros Hs. unfold char_of_sextet. n_compare;
    unfold sextet_of_char; n_compare; try (f_equal; lia); lia.
Qed.

Lemma char_of_sextet_plain s :
  s < 64 →
  char_of_sextet s ≠ pad ∧ is_ascii_whitespace (char_of_sextet s) = false
  ∧ char_of_sextet s < 128.
Proof.
  intros Hs. unfold char_of_sextet. n_compare;
    unfold is_ascii_whitespace, pad; n_compare; repeat split; try lia; try done.
Qed.

Lemma sextet_of_char_bound c s : sextet_of_char c = Some s → s < 64.
Proof.
  unfold sextet_of_char. n_compare; intros [= <-]; lia.
Qed.

Lemma sextets_of_bytes_bound l :
  Forall (λ b, b < 256) l → Forall (λ s, s < 64) (sextets_of_bytes l).
Proof.
  induction l as [l IH] using list_strong_ind. intros Hl.
  destruct l as [|a [|b [|c r]]]; simpl.
  - constructor.
  - inversion_clear Hl. repeat constructor; lia.
  - inversion_clear Hl as [|?? Ha Hl']. inversion_clear Hl'.
    repeat constructor; lia.
  - inversion_clear Hl as [|?? Ha Hl']. inversion_clear Hl' as [|?? Hb Hl''].
    inversion_clear Hl'' as [|?? Hc Hr].
    repeat (constructor; [lia|]). apply IH; [simpl; lia | done].
Qed.

Lemma bytes_of_sextets_bound l :
  Forall (λ s, s < 64) l → Forall (λ b, b < 256) (bytes_of_sextets l).
Proof.
  induction l as [l IH] using list_strong_ind. intros Hl.
  destruct l as [|s1 [|s2 [|s3 [|s4 r]]]]; simpl; try constructor.
  - inversion_clear Hl as [|?? H1 Hl']. inversion_clear Hl'. lia.
  - constructor.
  - inversion_clear Hl as [|?? H1 Hl']. inversion_clear Hl' as [|?? H2 Hl''].
    inversion_clear Hl''. lia.
  - inversion_clear Hl as [|?? H1 Hl']. inversion_clear Hl' as [|?? H2 Hl''].
    inversion_clear Hl''. repeat constructor; lia.
  - inversion_clear Hl as [|?? H1 Hl']. inversion_clear Hl' as [|?? H2 Hl''].
    inversion_clear Hl'' as [|?? H3 Hl3]. inversion_clear Hl3. lia.
  - inversion_clear Hl as [|?? H1 Hl']. inversion_clear Hl' as [|?? H2 Hl''].
    inversion_clear Hl'' as [|?? H3 Hl3]. inversion_clear Hl3 as [|?? H4 Hr].
    repeat (constructor; [lia|]). apply IH; [simpl; lia | done].
Qed.

Lemma bytes_of_sextets_of_bytes l :
  Forall (λ b, b < 256) l → bytes_of_sextets (sextets_of_bytes l) = l.
Proof.
  induction l as [l IH] using list_strong_ind. intros Hl.
  destruct l as [|a [|b [|c r]]]; simpl.
  - done.
  - inversion_clear Hl. f_equal. lia.
  - inversion_clear Hl as [|?? Ha Hl']. inversion_clear Hl'.
    f_equal; [lia|]. f_equal. lia.
  - inversion_clear Hl as [|?? Ha Hl']. inversion_clear Hl' as [|?? Hb Hl''].
    inversion_clear Hl'' as [|?? Hc Hr].
    rewrite IH by (simpl; lia || done).
    f_equal; [lia|]. f_equal; [lia|]. f_equal. lia.
Qed.

Lemma padding_add3 n : padding (3 + n) = padding n.
Proof.
  unfold padding. by replace ((3 + n) mod 3)%nat with (n mod 3)%nat by lia.
Qed.

(** The encoded text is a whole number of four-character groups. *)
Lemma encode_length l :
  ((length (sextets_of_bytes l) + length (padding (length l))) mod 4 = 0
   ∧ length (sextets_of_bytes l) mod 4 ≠ 1)%nat.
Proof.
  induction l as [l IH] using list_strong_ind.
  destruct l as [|a [|b [|c r]]]; try (vm_compute; split; [done | lia]).
  change (length (a :: b :: c :: r)) with (3 + length r)%nat.
  rewrite padding_add3. simpl sextets_of_bytes. simpl length.
  destruct (IH r) as [H1 H2]; [simpl; lia|]. split; lia.
Qed.

Lemma drop_last_pad_snoc s : drop_last_pad (s ++ [pad]) = s.
Proof.
  unfold drop_last_pad. rewrite last_snoc. simpl.
  apply removelast_last.
Qed.

Lemma drop_last_pad_plain s : Forall (λ c, c ≠ pad) s → drop_last_pad s = s.
Proof.
  intros Hs. unfold drop_last_pad.
  destruct (list.last s) as [c|] eqn:Hlast; [|done].
  apply last_Some in Hlast as [s' ->].
  apply Forall_app in Hs as [_ Hc]. inversion_clear Hc as [|?? Hne _].
  by rewrite (proj2 (N.eqb_neq _ _) Hne).
Qed.

Lemma strip_padding_encode l :
  Forall (λ b, b < 256) l →
  strip_padding (encode l) = map char_of_sextet (sextets_of_bytes l).
Proof.
  intros Hl. unfold strip_padding, encode.
  assert (Hplain : Forall (λ c, c ≠ pad) (map char_of_sextet (sextets_of_bytes l))).
  { apply Forall_map. eapply list.Forall_impl; [by apply sextets_of_bytes_bound|].
    intros s Hs. by apply char_of_sextet_plain. }
  destruct (encode_length l) as [Hlen _].
  rewrite length_app, length_map.
  rewrite (proj2 (Nat.eqb_eq _ _) Hlen).
  unfold padding. destruct (length l mod 3)%nat as [|[|[|?]]].
  - rewrite app_nil_r. by rewrite !(drop_last_pad_plain _ Hplain).
  - change [pad; pad] with ([pad] ++ [pad]). rewrite app_assoc.
    by rewrite !drop_last_pad_snoc.
  - by rewrite drop_last_pad_snoc, (drop_last_pad_plain _ Hplain).
  - rewrite app_nil_r. by rewrite !(drop_last_pad_plain _ Hplain).
Qed.

(** Decoding what [btoa] encoded gives the bytes back. *)
Lemma atob_encode l :
  Forall (λ b, b < 256) l → atob (encode l) = Ok l.
Proof.
  intros Hl. unfold atob. cbv zeta.
  pose proof (sextets_of_bytes_bound l Hl) as Hsx.
  rewrite filter_all.
  2:{ unfold encode. apply Forall_app. split.
      - apply Forall_map. eapply list.Forall_impl; [exact Hsx|].
        intros s Hs. by apply char_of_sextet_plain.
      - unfold padding. destruct (length l mod 3)%nat as [|[|[|?]]];
          repeat constructor. }
  rewrite strip_padding_encode by done.
  rewrite length_map.
  destruct (encode_length l) as [_ Hne].
  rewrite (proj2 (Nat.eqb_neq _ _) Hne).
  change (map char_of_sextet) with (fmap (M:=list) char_of_sextet).
  rewrite mapM_fmap_Forall_Some.
  - by rewrite bytes_of_sextets_of_bytes.
  - eapply list.Forall_impl; [exact Hsx|]. intros s Hs.
    by apply sextet_of_char_of_sextet.
Qed.

Lemma btoa_latin1 s :
  Forall (λ c, c < 256) s → btoa s = Ok (encode s).
Proof.
  intros Hs. unfold btoa.
  assert (forallb is_latin1 s = true) as ->; [|done].
  apply forallb_Forall. eapply list.Forall_impl; [exact Hs|].
  intros c Hc. unfold is_latin1. apply N.leb_le. simpl in Hc. lia.
Qed.

Lemma btoa_not_latin1 s c :
  c ∈ s → 255 < c → btoa s = Throw InvalidCharacterError.
Proof.
  intros Hin Hc. unfold btoa.
  destruct (forallb is_latin1 s) eqn:Hall; [|done].
  apply forallb_Forall in Hall. rewrite list.Forall_forall in Hall.
  specialize (Hall c Hin). unfold is_latin1 in Hall.
  apply N.leb_le in Hall. lia.
Qed.

Lemma mapM_sextet_bound s sx :
  mapM sextet_of_char s = Some sx → Forall (λ x, x < 64) sx.
Proof.
  rewrite mapM_Some.
  induction 1 as [|c x s' sx' Hc _ IH]; constructor;
    eauto using sextet_of_char_bound.
Qed.

(** [atob] only produces code units below 256. *)
Lemma atob_latin1 s d : atob s = Ok d → Forall (λ c, c < 256) d.
Proof.
  unfold atob. case_match; [done|].
  destruct (mapM _ _) as [sx|] eqn:Hsx; [|done]. intros [= <-].
  by eapply bytes_of_sextets_bound, mapM_sextet_bound.
Qed.

(** Every character of an encoded text is ASCII. *)
Lemma encode_ascii l :
  Forall (λ b, b < 256) l → Forall (λ c, c < 128) (encode l).
Proof.
  intros Hl. unfold encode. apply Forall_app. split.
  - apply Forall_map. eapply list.Forall_impl; [by apply sextets_of_bytes_bound|].
    intros s Hs. by apply char_of_sextet_plain.
  - unfold padding, pad. destruct (length l mod 3)%nat as [|[|[|?]]];
      repeat constructor; lia.
Qed.

End Base64Facts.

(** ** The compression pass *)
Section CompressionFacts.
Import Base64Facts.

Lemma ToUint16_small c : c < 256 → ToUint16 c = c.
Proof. unfold ToUint16. intros Hc. apply N.mod_small. lia. Qed.

Lemma String_fromCharCode_PNum x :
  Forall (λ c, c < 256) x → String_fromCharCode (map PNum x) = x.
Proof.
  unfold String_fromCharCode.
  induction 1 as [|c x Hc _ IH]; [done|]. simpl.
  by rewrite IH, ToUint16_small.
Qed.

(** No inherited property name is as short as two characters. *)
Lemma Object_prototype_keys_long k :
  k ∈ Object_prototype_keys → (7 ≤ length k)%nat.
Proof.
  revert k. apply list.Forall_forall. unfold Object_prototype_keys.
  repeat (constructor; [simpl; lia|]). constructor.
Qed.

Lemma dict_get_pair dict a b :
  dict !! [a; b] = None → dict_get dict [a; b] = None.
Proof.
  intros Hnone. unfold dict_get. rewrite Hnone.
  case_bool_decide as Hin; [|done].
  apply Object_prototype_keys_long in Hin. simpl in Hin. lia.
Qed.

Lemma dict_set_pair dict a b code :
  dict_set dict [a; b] code = <[ [a; b] := code ]> dict.
Proof. unfold dict_set. by case_bool_decide. Qed.

(** While no two-character substring comes back, the encoder never
    extends its phrase: it emits the characters one by one. *)
Lemma compress_loop_no_repeat r : ∀ st p,
  cs_phrase st = [p] →
  (∀ k, k ∈ adjacent_pairs (p :: r) → cs_dict st !! k = None) →
  NoDup (adjacent_pairs (p :: r)) →
  let st' := fold_left compress_step r st in
  cs_output st' ++ [emitted (cs_dict st') (cs_phrase st')]
  = cs_output st ++ map PNum (p :: r).
Proof.
  induction r as [|c r IH]; intros st p Hphrase Hfresh Hnodup.
  - simpl. by rewrite Hphrase.
  - change (adjacent_pairs (p :: c :: r))
      with ([p; c] :: adjacent_pairs (c :: r)) in *.
    apply list.NoDup_cons in Hnodup as [Hnotin Hnodup].
    assert (Hstep : compress_step st c
                    = mkCS (<[ [p; c] := cs_code st ]> (cs_dict st))
                           (cs_output st ++ [PNum p]) [c] (cs_code st + 1)).
    { unfold compress_step. rewrite Hphrase. simpl.
      rewrite dict_get_pair by (apply Hfresh; left).
      by rewrite dict_set_pair. }
    cbn [fold_left]. rewrite Hstep.
    rewrite IH with (p := c); simpl; try done.
    + by rewrite <- app_assoc.
    + intros k Hk.
      rewrite lookup_insert_ne by (intros <-; done).
      apply Hfresh. by right.
Qed.

(** On a non-empty 8-bit string in which no two-character substring
    occurs twice, [compress] is plain base64. *)
Lemma compress_no_repeat x :
  x ≠ [] → Forall (λ c, c < 256) x → NoDup (adjacent_pairs x) →
  compress x = Ok (Base64.encode x).
Proof.
  intros Hne Hx Hnodup. destruct x as [|c0 rest]; [done|].
  unfold compress.
  rewrite (compress_loop_no_repeat rest (mkCS ∅ [] [c0] 256) c0); try done.
  simpl app. change (PNum c0 :: map PNum rest) with (map PNum (c0 :: rest)).
  rewrite String_fromCharCode_PNum by done.
  by apply btoa_latin1.
Qed.

(** The decoder loop on codes below 256: the dictionary only holds codes
    from 256 on, so every code is copied out as a character. *)
Lemma decompress_loop_bytes r : ∀ st,
  Forall (λ c, c < 256) r →
  (∀ k, is_Some (ds_dict st !! k) → 256 ≤ k) →
  256 ≤ ds_code st →
  concat (ds_output (fold_left decompress_step r st))
  = concat (ds_output st) ++ r.
Proof.
  induction r as [|c r IH]; intros st Hr Hdict Hcode; simpl.
  - by rewrite app_nil_r.
  - inversion_clear Hr as [|?? Hc Hr'].
    assert (Hstep : decompress_step st c
                    = mkDS (<[ds_code st := ds_phrase st ++ [c]]> (ds_dict st))
                           (ds_code st + 1) [c] (ds_output st ++ [[c]])).
    { unfold decompress_step.
      destruct (ds_dict st !! c) as [e|] eqn:Hlook.
      - assert (256 ≤ c) by (apply Hdict; eauto). lia.
      - assert ((c =? ds_code st) = false) as -> by (apply N.eqb_neq; lia).
        by rewrite ToUint16_small. }
    rewrite Hstep, IH; simpl; try done.
    + rewrite concat_app. simpl. by rewrite <- app_assoc.
    + intros k [e Hk]. destruct (decide (ds_code st = k)) as [<-|Hne]; [done|].
      rewrite lookup_insert_ne in Hk by done. apply Hdict. eauto.
    + lia.
Qed.

(** [decompress] never throws, and its dictionary never comes into
    play: it is [atob], except that the empty input gives U+0000 and an
    input that is not base64 comes back as it is. *)
Lemma decompress_eq compressed :
  decompress compressed
  = Ok (match atob compressed with
        | Throw _ => compressed
        | Ok [] => [0]
        | Ok (c :: r) => c :: r
        end).
Proof.
  unfold decompress, decompress_try.
  destruct (atob compressed) as [data|e] eqn:Hatob; [|done].
  apply atob_latin1 in Hatob.
  destruct data as [|c r]; [done|].
  inversion_clear Hatob as [|?? Hc Hr].
  simpl. rewrite decompress_loop_bytes; simpl; try done.
  - by rewrite ToUint16_small.
  - intros k [e Hk]. by rewrite lookup_empty in Hk.
Qed.

Lemma decompress_encode x :
  x ≠ [] → Forall (λ c, c < 256) x → decompress (Base64.encode x) = Ok x.
Proof.
  intros Hne Hx. rewrite decompress_eq, atob_encode by done.
  by destruct x.
Qed.

End CompressionFacts.

(** ** The engine *)

#[global] Arguments next_random : simpl never.
#[global] Arguments arrayBufferToBase64 : simpl never.
#[global] Arguments base64ToArrayBuffer : simpl never.
#[global] Arguments Base64.encode : simpl never.
#[global] Arguments jstr : simpl never.
#[global] Arguments enc_salt : simpl never.
#[global] Arguments sec_ : simpl never.
#[global] Arguments compress : simpl never.
#[global] Arguments decompress : simpl never.

(** Unfold the monadic plumbing of a method body. *)
Ltac unfold_M :=
  repeat (progress unfold try_catch, getItem, setItem, generateSalt, generateIV,
            getRandomValues, deriveKey, lift, emit, set_ready, console_log,
            console_error, get, throw, mbind, M_bind, mret, M_ret).

Lemma Ok_inj {A} (x y : A) : Ok x = Ok y → x = y.
Proof. congruence. Qed.

Section EngineFacts.
Context `{P : Platform}.
Import Base64Facts.

Lemma byte_of_N_to_N b : byte_of_N (Byte.to_N b) = b.
Proof.
  unfold byte_of_N. pose proof (Byte.to_N_bounded b).
  rewrite N.mod_small by lia. by rewrite Byte.of_to_N.
Qed.

Lemma bytes_latin1 (bytes : list byte) :
  Forall (λ c, c < 256) (map Byte.to_N bytes).
Proof.
  apply Forall_map, list.Forall_forall. intros b _.
  pose proof (Byte.to_N_bounded b). lia.
Qed.

Lemma arrayBufferToBase64_eq bytes :
  arrayBufferToBase64 bytes = Ok (Base64.encode (map Byte.to_N bytes)).
Proof. apply btoa_latin1, bytes_latin1. Qed.

Lemma base64ToArrayBuffer_encode bytes :
  base64ToArrayBuffer (Base64.encode (map Byte.to_N bytes)) = Ok bytes.
Proof.
  unfold base64ToArrayBuffer. rewrite atob_encode by apply bytes_latin1.
  f_equal. rewrite map_map. rewrite <- (map_id bytes) at 2.
  apply map_ext. intros b. apply byte_of_N_to_N.
Qed.

Lemma next_random_length s n : length (next_random s n) = n.
Proof. unfold next_random. by rewrite length_map, length_seq. Qed.

(** Every character of an envelope is a base64 character. *)
Lemma encode_base64_chars l :
  Forall (λ b, b < 256) l →
  Forall (λ c, is_base64_char c = true) (Base64.encode l).
Proof.
  intros Hl. unfold Base64.encode. apply Forall_app. split.
  - apply Forall_map.
    eapply list.Forall_impl; [by apply sextets_of_bytes_bound|].
    intros x Hx. simpl in *. unfold is_base64_char.
    by rewrite sextet_of_char_of_sextet.
  - unfold Base64.padding.
    destruct (length l mod 3)%nat as [|[|[|?]]]; by repeat constructor.
Qed.

(** [encrypt] on a ready engine, step by step. *)
Lemma encrypt_ready s k data c :
  isInitialized s = true → masterKey s = Some k →
  encrypt data c s =
    match processed data c with
    | Throw e => (Throw e, logged s [EvConsoleError e])
    | Ok text =>
        let iv := next_random s ivLength in
        let pt := TextEncoder_encode text in
        let sealed := AES_GCM_encrypt k iv 128 pt in
        (Ok (Base64.encode (map Byte.to_N (iv ++ sealed.1 ++ sealed.2))),
         mkMachine true (Some k) (localStorage s) (entropy s)
                   (drawn s + ivLength)%nat
                   (trace s ++ [EvGetRandomValues ivLength; EvEncrypt iv pt]))
    end.
Proof.
  destruct s as [init key ls ent dr tr]. simpl. intros -> ->.
  unfold encrypt, mbind, M_bind, get, try_catch, lift. simpl.
  destruct (processed data c) as [text|e]; simpl; [|done].
  unfold subtle_encrypt, mbind, M_bind, emit, mret, M_ret. simpl.
  change (tagLength * 8) with 128.
  destruct (AES_GCM_encrypt k _ _ _) as [ct tag] eqn:Hseal. simpl.
  rewrite arrayBufferToBase64_eq. simpl.
  unfold logged. simpl. by rewrite <- ?app_assoc.
Qed.

(** A call of [encrypt] that returns was made on a ready engine. *)
Lemma encrypt_ok_ready s data c env s' :
  encrypt data c s = (Ok env, s') →
  isInitialized s = true ∧ ∃ k, masterKey s = Some k.
Proof.
  destruct s as [init key ls ent dr tr].
  unfold encrypt, mbind, M_bind, get, try_catch, lift. simpl.
  destruct init; simpl; [|done].
  destruct key as [k|]; [eauto|].
  destruct (processed data c); simpl; [|done].
  unfold subtle_encrypt. simpl. done.
Qed.

(** [decrypt] on a ready engine, step by step. *)
Lemma decrypt_ready s k env d :
  isInitialized s = true → masterKey s = Some k →
  decrypt env d s =
    match base64ToArrayBuffer env with
    | Throw e => (Throw e, logged s [EvConsoleError e])
    | Ok combined =>
        let iv := take ivLength combined in
        let data := drop ivLength combined in
        let n := (length data - 16)%nat in
        let opened :=
          if (length data <? 16)%nat then None
          else AES_GCM_decrypt k iv 128 (take n data) (drop n data) in
        match opened with
        | None =>
            (Throw OperationError,
             logged s [EvDecrypt iv data; EvConsoleError OperationError])
        | Some pt =>
            match (if d then decompress (TextDecoder_decode pt)
                   else Ok (TextDecoder_decode pt)) with
            | Ok text => (Ok (parse_or_raw text), logged s [EvDecrypt iv data])
            | Throw e =>
                (Throw e, logged s [EvDecrypt iv data; EvConsoleError e])
            end
        end
    end.
Proof.
  destruct s as [init key ls ent dr tr]. simpl. intros -> ->.
  unfold decrypt, mbind, M_bind, get, try_catch, lift. simpl.
  destruct (base64ToArrayBuffer env) as [combined|e]; simpl; [|done].
  unfold subtle_decrypt, mbind, M_bind, emit, mret, M_ret, throw, logged. simpl.
  change (tagLength * 8) with 128.
  change (N.to_nat (128 / 8)) with 16%nat.
  destruct (length (drop ivLength combined) <? 16)%nat; simpl.
  { by rewrite <- ?app_assoc. }
  destruct (AES_GCM_decrypt k _ _ _ _) as [pt|]; simpl.
  2:{ by rewrite <- ?app_assoc. }
  destruct (if d then _ else _) as [text|e]; simpl; [done|].
  by rewrite <- ?app_assoc.
Qed.

(** Opening an envelope sealed under the same key. *)
Lemma decrypt_sealed s k iv pt d :
  AES_GCM_tag_length → AES_GCM_opens →
  isInitialized s = true → masterKey s = Some k →
  length iv = ivLength →
  let sealed := AES_GCM_encrypt k iv 128 pt in
  let env := Base64.encode (map Byte.to_N (iv ++ sealed.1 ++ sealed.2)) in
  decrypt env d s =
    match (if d then decompress (TextDecoder_decode pt)
           else Ok (TextDecoder_decode pt)) with
    | Ok text =>
        (Ok (parse_or_raw text), logged s [EvDecrypt iv (sealed.1 ++ sealed.2)])
    | Throw e =>
        (Throw e, logged s [EvDecrypt iv (sealed.1 ++ sealed.2); EvConsoleError e])
    end.
Proof.
  intros Htag Hopens Hinit Hkey Hiv sealed env.
  rewrite (decrypt_ready s k) by done. unfold env.
  rewrite base64ToArrayBuffer_encode. cbv zeta.
  rewrite !(take_app_length' iv _ ivLength (eq_sym Hiv)),
    !(drop_app_length' iv _ ivLength (eq_sym Hiv)).
  assert (Hlen : length sealed.2 = 16%nat).
  { pose proof (Htag k iv 128 pt eq_refl) as H. fold sealed in H. lia. }
  rewrite length_app, Hlen.
  assert ((length sealed.1 + 16 <? 16)%nat = false) as ->
    by (apply Nat.ltb_ge; lia).
  replace (length sealed.1 + 16 - 16)%nat with (length sealed.1) by lia.
  rewrite take_app_length, drop_app_length.
  unfold sealed. by rewrite Hopens.
Qed.

(** What the cipher receives is a text that reads back as [text]. *)
Lemma processed_reads_back (data : Value) (c : bool) :
  (if c then compressible (dataString data) ∧ UTF8_ascii
   else UTF8_stable (dataString data)) →
  ∃ text,
    processed data c = Ok text
    ∧ (if c then decompress (TextDecoder_decode (TextEncoder_encode text))
       else Ok (TextDecoder_decode (TextEncoder_encode text)))
      = Ok (dataString data).
Proof.
  destruct c; unfold processed.
  - intros [(Hne & H8 & Hnodup) Hascii].
    exists (Base64.encode (dataString data)). split.
    + by apply compress_no_repeat.
    + rewrite Hascii by (by apply encode_ascii).
      by apply decompress_encode.
  - intros Hstable. exists (dataString data). split; [done|].
    by rewrite Hstable.
Qed.

End EngineFacts.

(** * The claims *)

Section Claims.
Context `{P : Platform}.
Import Base64Facts.

(** C4, as the code has it.  [decompress] never raises: an input that
    is not base64 is returned unchanged, the empty input gives the
    one-character string U+0000, and any other base64 input gives the
    bytes it decodes to, whatever they are. *)
Theorem C4_decompress_never_raises (compressed : jsstring) :
  decompress compressed
  = Ok (match atob compressed with
        | Throw _ => compressed
        | Ok [] => [0]
        | Ok (c :: r) => c :: r
        end).
Proof. apply decompress_eq. Qed.

(** C9.  On an instance whose [isInitialized] is false, [encrypt] and
    [decrypt] throw the not-initialised error and leave the machine as it
    was: nothing is drawn, stored, logged or handed to the cipher. *)
Theorem C9_not_initialized (s : Machine) data c encryptedData d :
  isInitialized s = false →
  encrypt data c s = (Throw NotInitializedError, s)
  ∧ decrypt encryptedData d s = (Throw NotInitializedError, s).
Proof.
  intros Hinit.
  unfold encrypt, decrypt, mbind, M_bind, get, throw.
  by rewrite Hinit.
Qed.

(** An instance stays uninitialised through a failed [initialize]. *)
Lemma initialize_failure_stays_uninitialized (s : Machine) pw s' :
  isInitialized s = false →
  initialize pw s = (Ok false, s') → isInitialized s' = false.
Proof.
  destruct s as [init key ls ent dr tr]. cbn. intros ->.
  unfold initialize. unfold_M. cbn.
  destruct (falsy (ls !! enc_salt)); cbn.
  - rewrite arrayBufferToBase64_eq. cbn.
    rewrite base64ToArrayBuffer_encode. cbn. done.
  - destruct (base64ToArrayBuffer _); cbn; [done|]. by intros [= <-].
Qed.

(** C10.  When the serialised form of the value is the empty string,
    [encrypt(value, true)] on an initialised engine throws the TypeError
    of [compress] reading [phrase.length] on [undefined]; no nonce is
    drawn and nothing reaches the cipher, only the console. *)
Theorem C10_encrypt_empty_throws (s : Machine) (data : Value) :
  isInitialized s = true →
  dataString data = [] →
  compress (dataString data) = Throw TypeError
  ∧ encrypt data true s = (Throw TypeError, logged s [EvConsoleError TypeError]).
Proof.
  intros Hinit Hempty. rewrite Hempty. split; [done|].
  destruct s as [init key ls ent dr tr]. simpl in Hinit. subst init.
  unfold encrypt, processed, mbind, M_bind, get, try_catch, lift, throw,
    console_error, emit. simpl.
  by rewrite Hempty.
Qed.

(** C7.  [initialize] leaves a persisted salt alone: when [enc_salt]
    holds a (non-empty) string, the storage is unchanged, no random byte
    is drawn, and the key is derived from the stored salt.  When
    [enc_salt] is absent, 32 bytes are drawn, their base64 form is stored
    under [enc_salt], and only then is the key derived from them. *)
Theorem C7_initialize_salt (s : Machine) (masterPassword : jsstring) :
  (∀ salt, localStorage s !! enc_salt = Some salt → salt ≠ [] →
     let s' := (initialize masterPassword s).2 in
     localStorage s' = localStorage s
     ∧ drawn s' = drawn s
     ∧ ∀ saltBuffer, base64ToArrayBuffer salt = Ok saltBuffer →
         initialize masterPassword s
         = (Ok true,
            mkMachine true
              (Some (PBKDF2_SHA256 (TextEncoder_encode masterPassword)
                       saltBuffer keyDerivationIterations 256))
              (localStorage s) (entropy s) (drawn s)
              (trace s ++ [EvDeriveKey (TextEncoder_encode masterPassword)
                             saltBuffer keyDerivationIterations;
                           EvConsoleLog])))
  ∧ (localStorage s !! enc_salt = None →
     let bytes := next_random s saltLength in
     let salt := Base64.encode (map Byte.to_N bytes) in
     length bytes = 32%nat
     ∧ initialize masterPassword s
       = (Ok true,
          mkMachine true
            (Some (PBKDF2_SHA256 (TextEncoder_encode masterPassword)
                     bytes keyDerivationIterations 256))
            (<[enc_salt := salt]> (localStorage s)) (entropy s)
            (drawn s + saltLength)%nat
            (trace s ++ [EvGetRandomValues saltLength;
                         EvSetItem enc_salt salt;
                         EvDeriveKey (TextEncoder_encode masterPassword)
                           bytes keyDerivationIterations;
                         EvConsoleLog]))).
Proof.
  destruct s as [init key ls ent dr tr]. cbn. split.
  - intros salt Hsalt Hne.
    unfold initialize. unfold_M. cbn. rewrite Hsalt. destruct salt as [|c0 salt]; [done|]. cbn.
    destruct (base64ToArrayBuffer (c0 :: salt)) as [saltBuffer|e]; cbn.
    + repeat split. intros ? [= <-]. unfold logged. cbn.
      by rewrite <- ?app_assoc.
    + repeat split. by intros ? [=].
  - intros Hnone. split; [apply next_random_length|].
    unfold initialize. unfold_M. cbn. rewrite Hnone. cbn.
    rewrite arrayBufferToBase64_eq. cbn.
    rewrite base64ToArrayBuffer_encode. unfold logged. cbn.
    by rewrite <- ?app_assoc.
Qed.

(** What [generateSalt] writes is never the empty string. *)
Lemma generated_salt_not_empty (bytes : list byte) :
  length bytes = saltLength → Base64.encode (map Byte.to_N bytes) ≠ [].
Proof.
  intros Hlen.
  do 32 (destruct bytes as [|? bytes]; [done|]).
  done.
Qed.

(** [secureStore] succeeds exactly when [encrypt] does, and then stores
    what [encrypt] returned. *)
Lemma secureStore_eq (s : Machine) key value :
  secureStore key value s =
    match encrypt value true s with
    | (Ok encrypted, s1) =>
        (Ok true,
         mkMachine (isInitialized s1) (masterKey s1)
                   (<[sec_ key := encrypted]> (localStorage s1))
                   (entropy s1) (drawn s1)
                   (trace s1 ++ [EvSetItem (sec_ key) encrypted; EvConsoleLog]))
    | (Throw e, s1) => (Ok false, logged s1 [EvConsoleError e])
    end.
Proof.
  unfold secureStore, try_catch, mbind, M_bind.
  destruct (encrypt value true s) as [[encrypted|e] s1]; simpl; [|done].
  unfold setItem, console_log, emit, mret, M_ret, logged. simpl.
  by rewrite <- ?app_assoc.
Qed.

Lemma record_text_head envelope compressed :
  ∃ r, record_text envelope compressed = 123 :: r.
Proof. unfold record_text. simpl. eauto. Qed.

(** C5, as the code has it.  After a successful [secureStore(key, value)]
    the slot [sec_<key>] holds exactly the string [encrypt(value, true)]
    returned: base64 characters only, and not a record with an envelope
    and a flag.  The flag is not stored. *)
Theorem C5_secureStore_persists_bare_envelope (s : Machine) key value s' :
  secureStore key value s = (Ok true, s') →
  ∃ envelope s1,
    encrypt value true s = (Ok envelope, s1)
    ∧ localStorage s' = <[sec_ key := envelope]> (localStorage s)
    ∧ Forall (λ c, is_base64_char c = true) envelope
    ∧ ¬ has_record_shape envelope.
Proof.
  rewrite secureStore_eq.
  destruct (encrypt value true s) as [[envelope|e] s1] eqn:Henc; [|done].
  intros [= <-]. exists envelope, s1.
  destruct (encrypt_ok_ready _ _ _ _ _ Henc) as [Hinit [k Hkey]].
  pose proof Henc as Hsteps.
  rewrite (encrypt_ready s k) in Hsteps by done.
  destruct (processed value true) as [text|e]; [|done].
  cbv zeta in Hsteps. apply pair_equal_spec in Hsteps as [Henv Hs1].
  apply Ok_inj in Henv.
  assert (Hchars : Forall (λ c, is_base64_char c = true) envelope).
  { rewrite <- Henv. apply encode_base64_chars, bytes_latin1. }
  split; [done|]. split; [by rewrite <- Hs1|]. split; [done|].
  intros (env & flag & Heq).
  destruct (record_text_head env flag) as [r Hr].
  rewrite Heq, Hr in Hchars. by inversion_clear Hchars.
Qed.

(** [secureRetrieve] on a stored, non-empty entry. *)
Lemma secureRetrieve_stored (s : Machine) key encrypted :
  localStorage s !! sec_ key = Some encrypted → encrypted ≠ [] →
  secureRetrieve key s =
    match decrypt encrypted true s with
    | (Ok decrypted, s1) => (Ok decrypted, logged s1 [EvConsoleLog])
    | (Throw e, s1) => (Ok null_value, logged s1 [EvConsoleError e])
    end.
Proof.
  intros Hstored Hne.
  unfold secureRetrieve, try_catch, mbind, M_bind, getItem.
  rewrite Hstored. destruct encrypted as [|c0 encrypted]; [done|]. simpl.
  by destruct (decrypt (c0 :: encrypted) true s) as [[decrypted|e] s1].
Qed.

(** C3, as the code has it.  When the stored envelope fails decryption,
    [secureRetrieve] logs the error and returns [null], which is also
    what it returns for a key that was never stored. *)
Theorem C3_secureRetrieve_returns_null_on_failure
    (s : Machine) key encrypted e s1 :
  localStorage s !! sec_ key = Some encrypted → encrypted ≠ [] →
  decrypt encrypted true s = (Throw e, s1) →
  secureRetrieve key s = (Ok null_value, logged s1 [EvConsoleError e])
  ∧ ∀ s0 : Machine, localStorage s0 !! sec_ key = None →
      secureRetrieve key s0 = (Ok null_value, s0).
Proof.
  intros Hstored Hne Hfail. split.
  - by rewrite (secureRetrieve_stored s key encrypted), Hfail.
  - intros s0 Hnone.
    unfold secureRetrieve, try_catch, mbind, M_bind, getItem.
    by rewrite Hnone.
Qed.

End Claims.

(** C2, at the input ["aaa"].  The encoder emits the codes 97 and 256;
    [btoa] refuses the character 256, so [compress] throws and there is
    nothing for [decompress] to give back. *)
Theorem C2_compress_aaa_throws :
  cs_output (fold_left compress_step (jstr "aa") (mkCS ∅ [] (jstr "a") 256))
    ++ [emitted (cs_dict (fold_left compress_step (jstr "aa")
                            (mkCS ∅ [] (jstr "a") 256)))
                (cs_phrase (fold_left compress_step (jstr "aa")
                              (mkCS ∅ [] (jstr "a") 256)))]
  = [PNum 97; PNum 256]
  ∧ compress (jstr "aaa") = Throw InvalidCharacterError.
Proof. split; vm_compute; reflexivity. Qed.

Section RoundTrip.
Context `{P : Platform}.
Import Base64Facts.

(** C6.  An envelope returned by [encrypt] decodes to the 12-byte nonce
    that was drawn, then the ciphertext, then the 16-byte tag of
    AES-GCM, and nothing else; [decrypt] hands the cipher the first 12
    decoded bytes as nonce and the rest as data. *)
Theorem C6_envelope_wire_format (s : Machine) data c envelope s' :
  AES_GCM_tag_length →
  encrypt data c s = (Ok envelope, s') →
  ∃ nonce ciphertext tag,
    base64ToArrayBuffer envelope = Ok (nonce ++ ciphertext ++ tag)
    ∧ length nonce = 12%nat ∧ length tag = 16%nat
    ∧ nonce = next_random s ivLength
    ∧ (∃ k text, masterKey s = Some k ∧ processed data c = Ok text
         ∧ (ciphertext, tag)
           = AES_GCM_encrypt k nonce 128 (TextEncoder_encode text))
    ∧ ∀ (s0 : Machine) k0 d,
        isInitialized s0 = true → masterKey s0 = Some k0 →
        ∃ later,
          trace (decrypt envelope d s0).2
          = trace s0 ++ EvDecrypt nonce (ciphertext ++ tag) :: later.
Proof.
  intros Htag Henc.
  destruct (encrypt_ok_ready _ _ _ _ _ Henc) as [Hinit [k Hkey]].
  rewrite (encrypt_ready s k) in Henc by done.
  destruct (processed data c) as [text|e] eqn:Htext; [|done].
  cbv zeta in Henc. apply pair_equal_spec in Henc as [Henv _].
  apply Ok_inj in Henv.
  set (nonce := next_random s ivLength) in *.
  destruct (AES_GCM_encrypt k nonce 128 (TextEncoder_encode text))
    as [ciphertext tag] eqn:Hseal.
  cbn [fst snd] in Henv.
  assert (Hnonce : length nonce = ivLength) by apply next_random_length.
  exists nonce, ciphertext, tag. rewrite <- Henv.
  split; [apply base64ToArrayBuffer_encode|].
  split; [done|]. split.
  { pose proof (Htag k nonce 128 (TextEncoder_encode text) eq_refl) as H.
    rewrite Hseal in H. cbn [snd] in H. lia. }
  split; [done|]. split; [by exists k, text|].
  clearbody nonce. intros s0 k0 d Hinit0 Hkey0.
  rewrite (decrypt_ready s0 k0) by done.
  rewrite base64ToArrayBuffer_encode. cbv zeta.
  rewrite !(take_app_length' nonce _ ivLength (eq_sym Hnonce)),
    !(drop_app_length' nonce _ ivLength (eq_sym Hnonce)).
  repeat case_match; unfold logged; cbn [trace snd]; eauto.
Qed.

(** C1, as the code has it.  On an initialised engine, if the
    serialised text of [v] reads back as [v] under the parse-or-raw rule
    of [decrypt], then decrypting the envelope of [encrypt(v, compress)]
    with the same flag, under the same key, returns [v]: for
    [compress = false] when the text survives UTF-8, for
    [compress = true] when the text is one the compression pass can
    reverse. *)
Theorem C1_round_trip (s s2 : Machine) k (v : Value) (c : bool) :
  AES_GCM_tag_length → AES_GCM_opens →
  isInitialized s = true → masterKey s = Some k →
  isInitialized s2 = true → masterKey s2 = Some k →
  parse_or_raw (dataString v) = v →
  (if c then compressible (dataString v) ∧ UTF8_ascii
   else UTF8_stable (dataString v)) →
  ∃ envelope s1,
    encrypt v c s = (Ok envelope, s1)
    ∧ ∃ s3, decrypt envelope c s2 = (Ok v, s3).
Proof.
  intros Htag Hopens Hinit Hkey Hinit2 Hkey2 Hparse Hcond.
  destruct (processed_reads_back v c Hcond) as (text & Htext & Hback).
  rewrite (encrypt_ready s k) by done. rewrite Htext. cbv zeta.
  eexists _, _. split; [done|].
  rewrite (decrypt_sealed s2 k) by (done || apply next_random_length).
  rewrite Hback, Hparse. eauto.
Qed.

(** C8, as the code has it.  On a ready engine, when the text of [v]
    passes the processing step (it always does without compression),
    two calls [encrypt(v, c)] in a row both return an envelope.  They
    draw their nonces from two successive 12-byte stretches of the
    random stream; each envelope starts with its nonce, so the envelopes
    differ whenever the two stretches do.  And, for a value that
    round-trips, both envelopes decrypt back to [v]. *)
Theorem C8_two_encryptions (s : Machine) k (v : Value) (c : bool) text :
  isInitialized s = true → masterKey s = Some k →
  processed v c = Ok text →
  ∃ envelope1 s1 envelope2 s2,
    encrypt v c s = (Ok envelope1, s1)
    ∧ encrypt v c s1 = (Ok envelope2, s2)
    ∧ entropy s1 = entropy s ∧ drawn s1 = (drawn s + 12)%nat
    ∧ drawn s2 = (drawn s + 24)%nat
    ∧ (∃ rest, base64ToArrayBuffer envelope1
               = Ok (next_random s ivLength ++ rest))
    ∧ (∃ rest, base64ToArrayBuffer envelope2
               = Ok (next_random s1 ivLength ++ rest))
    ∧ (next_random s ivLength ≠ next_random s1 ivLength →
       envelope1 ≠ envelope2)
    ∧ (AES_GCM_tag_length → AES_GCM_opens →
       parse_or_raw (dataString v) = v →
       (if c then compressible (dataString v) ∧ UTF8_ascii
        else UTF8_stable (dataString v)) →
       (∃ s3, decrypt envelope1 c s2 = (Ok v, s3))
       ∧ (∃ s3, decrypt envelope2 c s2 = (Ok v, s3))).
Proof.
  intros Hinit Hkey Htext.
  pose proof (encrypt_ready s k v c Hinit Hkey) as H1.
  rewrite Htext in H1. cbv zeta in H1.
  set (s1 := mkMachine true (Some k) (localStorage s) (entropy s)
               (drawn s + ivLength)%nat
               (trace s ++ [EvGetRandomValues ivLength;
                            EvEncrypt (next_random s ivLength)
                              (TextEncoder_encode text)])) in *.
  pose proof (encrypt_ready s1 k v c eq_refl eq_refl) as H2.
  rewrite Htext in H2. cbv zeta in H2.
  set (s2 := mkMachine true (Some k) (localStorage s1) (entropy s1)
               (drawn s1 + ivLength)%nat
               (trace s1 ++ [EvGetRandomValues ivLength;
                             EvEncrypt (next_random s1 ivLength)
                               (TextEncoder_encode text)])) in *.
  eexists _, s1, _, s2.
  split; [exact H1|]. split; [exact H2|].
  split; [done|]. split; [done|].
  split; [unfold s2, s1, ivLength; cbn [drawn]; lia|].
  split; [eexists; apply base64ToArrayBuffer_encode|].
  split; [eexists; apply base64ToArrayBuffer_encode|].
  split.
  { intros Hdiff Heq. apply Hdiff.
    pose proof (base64ToArrayBuffer_encode
                  (next_random s ivLength
                   ++ (AES_GCM_encrypt k (next_random s ivLength) 128
                         (TextEncoder_encode text)).1
                   ++ (AES_GCM_encrypt k (next_random s ivLength) 128
                         (TextEncoder_encode text)).2)) as Hd1.
    rewrite Heq, base64ToArrayBuffer_encode in Hd1.
    apply Ok_inj in Hd1. symmetry in Hd1.
    apply app_inj_1 in Hd1 as [Hd1 _]; [done|].
    by rewrite !next_random_length. }
  intros Htag Hopens Hparse Hcond.
  destruct (processed_reads_back v c Hcond) as (text' & Htext' & Hback).
  rewrite Htext in Htext'. apply Ok_inj in Htext' as <-.
  split.
  - rewrite (decrypt_sealed s2 k) by (done || apply next_random_length).
    rewrite Hback, Hparse. eauto.
  - rewrite (decrypt_sealed s2 k) by (done || apply next_random_length).
    rewrite Hback, Hparse. eauto.
Qed.

End RoundTrip.

(** * The reference platform meets the laws *)
Module ReferenceFacts.
Import Reference.

Lemma to_N_byte_of_N n : Byte.to_N (byte_of_N n) = n mod 256.
Proof.
  unfold byte_of_N. destruct (Byte.of_N (n mod 256)) as [b|] eqn:Hb.
  - by apply Byte.to_of_N.
  - apply Byte.of_N_None_iff in Hb.
    pose proof (N.mod_lt n 256). lia.
Qed.

Lemma byte_of_N_eq n b : n mod 256 = Byte.to_N b → byte_of_N n = b.
Proof.
  intros Hn. unfold byte_of_N. by rewrite Hn, Byte.of_to_N.
Qed.

Lemma stream_sub_add pt : ∀ k, stream_sub k (stream_add k pt) = pt.
Proof.
  induction pt as [|b pt IH]; intros k; [done|]. simpl.
  rewrite IH. f_equal. apply byte_of_N_eq.
  rewrite to_N_byte_of_N. pose proof (Byte.to_N_bounded b). lia.
Qed.

Lemma tag_length : @AES_GCM_tag_length platform.
Proof.
  intros k iv bits pt Hbits. simpl. unfold r_tag.
  rewrite length_map, length_seq, N2Nat.id. lia.
Qed.

Lemma opens : @AES_GCM_opens platform.
Proof.
  intros k iv bits pt. simpl. unfold r_decrypt.
  rewrite bool_decide_eq_true_2 by done.
  by rewrite stream_sub_add.
Qed.

Lemma decode_encode_ascii s :
  Forall (λ c, c < 128) s → decode_bytes (r_encode s) = s.
Proof.
  induction 1 as [|c s Hc _ IH]; [done|].
  cbn [r_encode].
  assert (is_high_surrogate c = false) as ->
    by (unfold is_high_surrogate; apply andb_false_intro1, N.leb_gt; lia).
  assert (is_low_surrogate c = false) as ->
    by (unfold is_low_surrogate; apply andb_false_intro1, N.leb_gt; lia).
  unfold utf8_of_code_point.
  assert ((c <? 128) = true) as -> by (apply N.ltb_lt; lia).
  cbn [app decode_bytes]. rewrite to_N_byte_of_N.
  rewrite N.mod_small by lia.
  assert ((c <? 128) = true) as -> by (apply N.ltb_lt; lia).
  by rewrite IH.
Qed.

Lemma utf8_ascii : @UTF8_ascii platform.
Proof.
  intros s Hs. simpl. unfold r_decode. rewrite decode_encode_ascii by done.
  destruct Hs as [|c s Hc _]; [done|].
  assert ((c =? 65279) = false) as -> by (apply N.eqb_neq; lia).
  done.
Qed.

End ReferenceFacts.

(** * The claims on concrete inputs *)
Module Concrete.
Import Reference ReferenceFacts.
#[local] Existing Instance platform.

(** A run is its result and its final machine. *)
Lemma run_eq {A} (r : Outcome A * Machine) (o : Outcome A) :
  r.1 = o → r = (o, r.2).
Proof. destruct r. simpl. congruence. Qed.

Lemma ready_is_initialized : isInitialized ready = true.
Proof. vm_compute. reflexivity. Qed.

Lemma ready_has_key : masterKey ready = Some ready_key.
Proof. vm_compute. reflexivity. Qed.

Lemma helo_compressible : compressible (jstr "helo").
Proof.
  split; [vm_compute; discriminate|].
  split; apply (bool_decide_unpack _); vm_compute; exact I.
Qed.

(** C1 at ["helo"], compressed and not. *)
Lemma C1_round_trip_helo :
  (∃ envelope s1,
     encrypt (RStr (jstr "helo")) true ready = (Ok envelope, s1)
     ∧ ∃ s3, decrypt envelope true ready = (Ok (RStr (jstr "helo")), s3))
  ∧ (∃ envelope s1,
       encrypt (RStr (jstr "helo")) false ready = (Ok envelope, s1)
       ∧ ∃ s3, decrypt envelope false ready = (Ok (RStr (jstr "helo")), s3)).
Proof.
  split.
  - apply (C1_round_trip ready ready ready_key (RStr (jstr "helo")) true
             tag_length opens ready_is_initialized ready_has_key
             ready_is_initialized ready_has_key).
    + vm_compute. reflexivity.
    + split; [exact helo_compressible | exact utf8_ascii].
  - apply (C1_round_trip ready ready ready_key (RStr (jstr "helo")) false
             tag_length opens ready_is_initialized ready_has_key
             ready_is_initialized ready_has_key).
    + vm_compute. reflexivity.
    + vm_compute. reflexivity.
Defined.

(** C1 as stated fails on the string ["123"]: it comes back as the
    number 123. *)
Lemma C1_counterexample_numeric_string :
  (encrypt (RStr (jstr "123")) false ready).1 = Ok envelope_123
  ∧ (decrypt envelope_123 false ready).1 = Ok (RNum 123)
  ∧ RNum 123 ≠ RStr (jstr "123").
Proof.
  split; [vm_compute; reflexivity|].
  split; [vm_compute; reflexivity | discriminate].
Qed.

(** C3 on the tampered record. *)
Lemma C3_tampered_record :
  secureRetrieve (jstr "k") tampered
  = (Ok RNull,
     logged (decrypt tampered_envelope true tampered).2
            [EvConsoleError OperationError])
  ∧ ∀ s0 : Machine, localStorage s0 !! sec_ (jstr "k") = None →
      secureRetrieve (jstr "k") s0 = (Ok RNull, s0).
Proof.
  apply (C3_secureRetrieve_returns_null_on_failure
           tampered (jstr "k") tampered_envelope OperationError).
  - vm_compute. reflexivity.
  - vm_compute. discriminate.
  - apply run_eq. vm_compute. reflexivity.
Defined.

(** C3 as stated fails: the tampered record and the key never stored
    both give [null], and no error reaches the caller. *)
Lemma C3_counterexample_tampered_record :
  (decrypt tampered_envelope true tampered).1 = Throw OperationError
  ∧ (secureRetrieve (jstr "k") tampered).1 = Ok RNull
  ∧ (secureRetrieve (jstr "k") ready).1 = Ok RNull
  ∧ (secureRetrieve (jstr "k") stored).1 = Ok (RStr (jstr "helo")).
Proof. repeat split; vm_compute; reflexivity. Qed.

(** C4 as stated fails: an input that is not base64, and a stream cut
    short, both come back as strings. *)
Lemma C4_counterexample_malformed_input :
  atob (jstr "!!!") = Throw InvalidCharacterError
  ∧ decompress (jstr "!!!") = Ok (jstr "!!!")
  ∧ compress (jstr "abcd") = Ok (jstr "YWJjZA==")
  ∧ decompress (jstr "YWJj") = Ok (jstr "abc").
Proof. repeat split; vm_compute; reflexivity. Qed.

(** C5 on [secureStore("k", "helo")]. *)
Lemma C5_stored_helo :
  ∃ envelope s1,
    encrypt (RStr (jstr "helo")) true ready = (Ok envelope, s1)
    ∧ localStorage stored = <[sec_ (jstr "k") := envelope]> (localStorage ready)
    ∧ Forall (λ c, is_base64_char c = true) envelope
    ∧ ¬ has_record_shape envelope.
Proof.
  apply (C5_secureStore_persists_bare_envelope
           ready (jstr "k") (RStr (jstr "helo")) stored).
  apply run_eq. vm_compute. reflexivity.
Defined.

(** C5 as stated fails: what is stored is not a record. *)
Lemma C5_counterexample_no_record :
  (secureStore (jstr "k") (RStr (jstr "helo")) ready).1 = Ok true
  ∧ localStorage stored !! sec_ (jstr "k") = Some envelope_helo
  ∧ ¬ has_record_shape envelope_helo.
Proof.
  split; [vm_compute; reflexivity|].
  split; [vm_compute; reflexivity|].
  intros (envelope & flag & Heq).
  destruct (record_text_head envelope flag) as [r Hr].
  rewrite Hr in Heq. vm_compute in Heq. discriminate.
Qed.

(** C6 on the envelope of ["helo"]. *)
Lemma C6_envelope_of_helo :
  ∃ nonce ciphertext tag,
    base64ToArrayBuffer envelope_helo = Ok (nonce ++ ciphertext ++ tag)
    ∧ length nonce = 12%nat ∧ length tag = 16%nat
    ∧ nonce = next_random ready ivLength.
Proof.
  assert (Henc : encrypt (RStr (jstr "helo")) true ready
                 = (Ok envelope_helo,
                    (encrypt (RStr (jstr "helo")) true ready).2))
    by (apply run_eq; vm_compute; reflexivity).
  destruct (C6_envelope_wire_format ready (RStr (jstr "helo")) true
              envelope_helo _ tag_length Henc)
    as (nonce & ciphertext & tag & H1 & H2 & H3 & H4 & _).
  exists nonce, ciphertext, tag.
  split; [exact H1|]. split; [exact H2|]. split; [exact H3 | exact H4].
Defined.

(** C7 on the fresh browser, and on the next start. *)
Lemma C7_first_and_second_start :
  (localStorage (initialize (jstr "pw") fresh).2 !! enc_salt
   = Some (Base64.encode (map Byte.to_N (next_random fresh saltLength))))
  ∧ localStorage (initialize (jstr "pw") ready).2 = localStorage ready
  ∧ drawn (initialize (jstr "pw") ready).2 = drawn ready.
Proof.
  destruct (C7_initialize_salt fresh (jstr "pw")) as [_ Hfresh].
  destruct (C7_initialize_salt ready (jstr "pw")) as [Hready _].
  destruct (Hfresh ltac:(vm_compute; reflexivity)) as [_ ->].
  destruct (Hready (Base64.encode (map Byte.to_N (next_random fresh saltLength)))
              ltac:(vm_compute; reflexivity) ltac:(vm_compute; discriminate))
    as (H1 & H2 & _).
  split; [|split; [exact H1 | exact H2]].
  cbn [snd localStorage]. apply lookup_insert_eq.
Defined.

(** C8 on ["helo"] with compression, where both envelopes also decrypt
    back, and on ["123"] without, where two envelopes are drawn all the
    same. *)
Lemma C8_two_envelopes_of_helo :
  (∃ envelope1 s1 envelope2 s2,
     encrypt (RStr (jstr "helo")) true ready = (Ok envelope1, s1)
     ∧ encrypt (RStr (jstr "helo")) true s1 = (Ok envelope2, s2)
     ∧ envelope1 ≠ envelope2
     ∧ (∃ s3, decrypt envelope1 true s2 = (Ok (RStr (jstr "helo")), s3))
     ∧ (∃ s3, decrypt envelope2 true s2 = (Ok (RStr (jstr "helo")), s3)))
  ∧ (∃ envelope1 s1 envelope2 s2,
       encrypt (RStr (jstr "123")) false ready = (Ok envelope1, s1)
       ∧ encrypt (RStr (jstr "123")) false s1 = (Ok envelope2, s2)
       ∧ drawn s2 = (drawn ready + 24)%nat
       ∧ envelope1 ≠ envelope2).
Proof.
  split.
  - destruct (C8_two_encryptions ready ready_key (RStr (jstr "helo")) true
                (Base64.encode (jstr "helo"))
                ready_is_initialized ready_has_key)
      as (e1 & s1 & e2 & s2 & H1 & H2 & Hent & Hd1 & _ & _ & _ & Hne & Hback).
    + vm_compute. reflexivity.
    + destruct (Hback tag_length opens) as [H3 H4].
      * vm_compute. reflexivity.
      * split; [exact helo_compressible | exact utf8_ascii].
      * exists e1, s1, e2, s2.
        split; [exact H1|]. split; [exact H2|].
        split; [|split; [exact H3 | exact H4]].
        apply Hne. unfold next_random. rewrite Hent, Hd1.
        vm_compute. discriminate.
  - destruct (C8_two_encryptions ready ready_key (RStr (jstr "123")) false
                (jstr "123") ready_is_initialized ready_has_key)
      as (e1 & s1 & e2 & s2 & H1 & H2 & Hent & Hd1 & Hd2 & _ & _ & Hne & _).
    + reflexivity.
    + exists e1, s1, e2, s2.
      split; [exact H1|]. split; [exact H2|]. split; [exact Hd2|].
      apply Hne. unfold next_random. rewrite Hent, Hd1.
      vm_compute. discriminate.
Defined.

(** C8 as stated fails: with a random source that repeats itself the
    two envelopes are the same, and the string ["123"] comes back from
    both as the number 123. *)
Lemma C8_counterexample_repeated_nonce :
  (encrypt (RStr (jstr "123")) false ready_stuck).1 = Ok envelope_stuck
  ∧ (encrypt (RStr (jstr "123")) false
       (encrypt (RStr (jstr "123")) false ready_stuck).2).1
    = Ok envelope_stuck
  ∧ (decrypt envelope_stuck false ready_stuck).1 = Ok (RNum 123).
Proof. repeat split; vm_compute; reflexivity. Qed.

(** C9 on the new instance. *)
Lemma C9_new_instance :
  encrypt (RStr (jstr "helo")) true fresh = (Throw NotInitializedError, fresh)
  ∧ decrypt (jstr "AAAA") true fresh = (Throw NotInitializedError, fresh).
Proof.
  apply (C9_not_initialized fresh (RStr (jstr "helo")) true (jstr "AAAA") true).
  reflexivity.
Defined.

(** C10 on the empty string. *)
Lemma C10_empty_string :
  compress (dataString (RStr [])) = Throw TypeError
  ∧ encrypt (RStr []) true ready
    = (Throw TypeError, logged ready [EvConsoleError TypeError]).
Proof.
  apply (C10_encrypt_empty_throws ready (RStr [])).
  - exact ready_is_initialized.
  - reflexivity.
Defined.

(** Known base64 vectors, and the compression pass on short inputs. *)
Example btoa_vectors :
  btoa (jstr "Man") = Ok (jstr "TWFu")
  ∧ btoa (jstr "ab") = Ok (jstr "YWI=")
  ∧ btoa (jstr "a") = Ok (jstr "YQ==")
  ∧ btoa [256] = Throw InvalidCharacterError.
Proof. repeat split; vm_compute; reflexivity. Qed.

Example atob_vectors :
  atob (jstr "TWFu") = Ok (jstr "Man")
  ∧ atob (jstr "YWI=") = Ok (jstr "ab")
  ∧ atob (jstr "YQ") = Ok (jstr "a")
  ∧ atob (jstr "Y") = Throw InvalidCharacterError
  ∧ atob (jstr "YQ=") = Throw InvalidCharacterError.
Proof. repeat split; vm_compute; reflexivity. Qed.

Example compress_vectors :
  compress (jstr "ab") = Ok (jstr "YWI=")
  ∧ decompress (jstr "YWI=") = Ok (jstr "ab")
  ∧ compress [] = Throw TypeError
  ∧ decompress [] = Ok [0].
Proof. repeat split; vm_compute; reflexivity. Qed.

(** The scenario of the specification: the profile record does not
    get stored, because its text repeats a two-character substring. *)
Example compress_profile_throws :
  compress (jstr "{" ++ dquote ++ jstr "name" ++ dquote ++ jstr ":"
            ++ dquote ++ jstr "Alice" ++ dquote ++ jstr ","
            ++ dquote ++ jstr "age" ++ dquote ++ jstr ":30}")
  = Throw InvalidCharacterError.
Proof. vm_compute. reflexivity. Qed.

End Concrete.

(** * Further properties *)

(** ** The compression pass, completely *)
Section CompressionMore.
Import Base64Facts.

(** The output array only grows. *)
Lemma compress_output_grows r : ∀ st x,
  x ∈ cs_output st → x ∈ cs_output (fold_left compress_step r st).
Proof.
  induction r as [|c r IH]; intros st x Hx; [done|].
  cbn [fold_left]. apply IH. unfold compress_step.
  destruct (dict_get _ _); cbn [cs_output]; [done|].
  apply elem_of_app. by left.
Qed.

Lemma dict_get_triple st a b c :
  pairs_only st → dict_get (cs_dict st) [a; b; c] = None.
Proof.
  intros [_ Hpairs]. unfold dict_get.
  destruct (cs_dict st !! [a; b; c]) as [v|] eqn:Hv.
  - apply Hpairs in Hv as [Hlen _]. done.
  - case_bool_decide as Hin; [|done].
    apply Object_prototype_keys_long in Hin. simpl in Hin. lia.
Qed.

(** Once a two-character phrase has matched, its code reaches the
    output. *)
Lemma compress_after_match r : ∀ st p c v,
  pairs_only st → cs_phrase st = [p; c] → cs_dict st !! [p; c] = Some v →
  let st' := fold_left compress_step r st in
  PNum v ∈ cs_output st' ++ [emitted (cs_dict st') (cs_phrase st')].
Proof.
  destruct r as [|d r]; intros st p c v Hpairs Hphrase Hv; cbn [fold_left]; cbv zeta.
  - apply elem_of_app. right. unfold emitted. rewrite Hphrase. cbn.
    unfold dict_get. rewrite Hv. by apply list_elem_of_singleton.
  - apply elem_of_app. left. apply compress_output_grows.
    unfold compress_step. rewrite Hphrase. cbn [app].
    rewrite dict_get_triple by done. cbn [cs_output].
    apply elem_of_app. right. unfold emitted. cbn.
    unfold dict_get. rewrite Hv. by apply list_elem_of_singleton.
Qed.

(** When some two-character substring comes back, a code from 256 on
    reaches the output. *)
Lemma compress_loop_repeat r : ∀ st p,
  pairs_only st → cs_phrase st = [p] →
  ¬ (NoDup (adjacent_pairs (p :: r))
     ∧ ∀ k, k ∈ adjacent_pairs (p :: r) → cs_dict st !! k = None) →
  let st' := fold_left compress_step r st in
  ∃ v, 256 ≤ v ∧ v < cs_code st + N.of_nat (length r)
       ∧ PNum v ∈ cs_output st' ++ [emitted (cs_dict st') (cs_phrase st')].
Proof.
  induction r as [|c r IH]; intros st p Hpairs Hphrase Hrepeat.
  - exfalso. apply Hrepeat. split; [constructor|]. by intros k Hk%elem_of_nil.
  - change (adjacent_pairs (p :: c :: r))
      with ([p; c] :: adjacent_pairs (c :: r)) in Hrepeat.
    cbn [fold_left]. cbv zeta.
    destruct (cs_dict st !! [p; c]) as [v|] eqn:Hv.
    + (* the pair is known: the phrase is extended *)
      assert (Hstep : compress_step st c
                      = mkCS (cs_dict st) (cs_output st) [p; c] (cs_code st)).
      { unfold compress_step. rewrite Hphrase. cbn [app].
        unfold dict_get. by rewrite Hv. }
      rewrite Hstep. exists v.
      destruct (proj2 Hpairs _ _ Hv) as (_ & Hlo & Hhi).
      split; [done|]. split; [lia|].
      by apply (compress_after_match r (mkCS _ _ _ _) p c v).
    + (* a new pair: it is inserted and the scan goes on *)
      assert (Hstep : compress_step st c
                      = mkCS (<[ [p; c] := cs_code st ]> (cs_dict st))
                             (cs_output st ++ [PNum p]) [c] (cs_code st + 1)).
      { unfold compress_step. rewrite Hphrase. cbn [app].
        rewrite dict_get_pair by done. by rewrite dict_set_pair. }
      rewrite Hstep.
      destruct (IH (mkCS (<[ [p; c] := cs_code st ]> (cs_dict st))
                         (cs_output st ++ [PNum p]) [c] (cs_code st + 1)) c)
        as (w & Hlo & Hhi & Hin).
      * destruct Hpairs as [Hcode Hpairs]. split; [cbn [cs_code]; lia|].
        intros k x. cbn [cs_dict cs_code]. intros Hk.
        destruct (decide ([p; c] = k)) as [<-|Hne].
        -- rewrite lookup_insert_eq in Hk. injection Hk as <-.
           split; [done|]. lia.
        -- rewrite lookup_insert_ne in Hk by done.
           destruct (Hpairs _ _ Hk) as (? & ? & ?). split; [done|]. lia.
      * done.
      * intros [Hnodup Hfresh]. apply Hrepeat. split.
        -- apply list.NoDup_cons. split; [|done].
           intros Hin. specialize (Hfresh _ Hin). cbn [cs_dict] in Hfresh.
           by rewrite lookup_insert_eq in Hfresh.
        -- intros k [->|Hk]%elem_of_cons; [done|].
           specialize (Hfresh _ Hk). cbn [cs_dict] in Hfresh.
           destruct (decide ([p; c] = k)) as [<-|Hne]; [done|].
           by rewrite lookup_insert_ne in Hfresh.
      * exists w. cbn [cs_code] in Hhi. cbn [length].
        split; [done|]. split; [lia | done].
Qed.

Lemma compress_spec (data : jsstring) :
  N.of_nat (length data) ≤ 65280 → Forall (λ c, c < 65536) data →
  (data = [] ∧ compress data = Throw TypeError)
  ∨ (compressible data ∧ compress data = Ok (Base64.encode data))
  ∨ (data ≠ [] ∧ ¬ compressible data
     ∧ compress data = Throw InvalidCharacterError).
Proof.
  intros Hlen H16. destruct data as [|c0 rest]; [by left|]. right.
  destruct (decide (NoDup (adjacent_pairs (c0 :: rest)))) as [Hnodup|Hdup].
  - destruct (decide (Forall (λ c, c < 256) (c0 :: rest))) as [H8|Hwide].
    + left. split; [done|]. by apply compress_no_repeat.
    + right. split; [done|]. split; [by intros (_ & ? & _)|].
      unfold compress.
      rewrite (compress_loop_no_repeat rest (mkCS ∅ [] [c0] 256) c0); try done.
      cbn [cs_output app].
      change (PNum c0 :: map PNum rest) with (map PNum (c0 :: rest)).
      apply not_Forall_Exists in Hwide; [|apply _].
      apply Exists_exists in Hwide as (c & Hin & Hc). unfold compose in Hc.
      apply (btoa_not_latin1 _ c); [|lia].
      unfold String_fromCharCode. rewrite map_map.
      apply list_elem_of_In, in_map_iff. exists c. split; [|done].
      cbn. unfold ToUint16. apply N.mod_small.
      rewrite list.Forall_forall in H16. apply H16. by apply list_elem_of_In.
  - right. split; [done|]. split; [by intros (_ & _ & ?)|].
    unfold compress.
    destruct (compress_loop_repeat rest (mkCS ∅ [] [c0] 256) c0)
      as (v & Hlo & Hhi & Hin).
    + split; [cbn; lia|]. intros k x Hk. cbn [cs_dict] in Hk.
      by rewrite lookup_empty in Hk.
    + done.
    + by intros [? _].
    + cbn [cs_code] in Hhi. cbn [length] in Hlen.
      apply (btoa_not_latin1 _ v); [|lia].
      unfold String_fromCharCode.
      apply list_elem_of_In, in_map_iff. exists (PNum v).
      split; [|by apply list_elem_of_In].
      cbn. unfold ToUint16. apply N.mod_small. lia.
Qed.

(** X1.  [compress], case by case, on a string of at most 65280 characters:
    a TypeError on the empty string; the base64 text of the input when
    its characters fit in 8 bits and no two-character substring occurs
    twice; and the InvalidCharacterError of [btoa] in every other case. *)
Theorem compress_cases (data : jsstring) :
  N.of_nat (length data) ≤ 65280 → Forall (λ c, c < 65536) data →
  (data = [] ∧ compress data = Throw TypeError)
  ∨ (compressible data ∧ compress data = Ok (Base64.encode data))
  ∨ (data ≠ [] ∧ ¬ compressible data
     ∧ compress data = Throw InvalidCharacterError).
Proof. apply compress_spec. Qed.

(** X2.  On the strings it accepts, the compression pass is reversible. *)
Theorem compress_decompress (data : jsstring) :
  compressible data →
  ∃ compressed, compress data = Ok compressed
                ∧ decompress compressed = Ok data.
Proof.
  intros (Hne & H8 & Hnodup). exists (Base64.encode data). split.
  - by apply compress_no_repeat.
  - by apply decompress_encode.
Qed.

Lemma encode_length_formula l :
  length (Base64.encode l) = (4 * ((length l + 2) / 3))%nat.
Proof.
  induction l as [l IH] using list_strong_ind.
  destruct l as [|a [|b [|c r]]]; try reflexivity.
  unfold Base64.encode in *.
  change (length (a :: b :: c :: r)) with (3 + length r)%nat.
  rewrite padding_add3. cbn [Base64.sextets_of_bytes].
  rewrite map_app, <- app_assoc, length_app. cbn [map length].
  rewrite IH by (cbn; lia).
  replace (3 + length r + 2)%nat with (length r + 2 + 1 * 3)%nat by lia.
  rewrite Nat.div_add by lia. lia.
Qed.

(** X3.  What [compress] returns is never shorter than its input: for
    strings of at most 65280 characters the result has four characters
    for every three of the input, rounded up. *)
Theorem compress_never_shrinks (data compressed : jsstring) :
  N.of_nat (length data) ≤ 65280 → Forall (λ c, c < 65536) data →
  compress data = Ok compressed →
  length compressed = (4 * ((length data + 2) / 3))%nat
  ∧ (length data < length compressed)%nat.
Proof.
  intros Hlen H16 Hok.
  destruct (compress_spec data Hlen H16)
    as [[_ Herr]|[[Hc Heq]|(_ & _ & Herr)]]; try congruence.
  rewrite Heq in Hok. apply Ok_inj in Hok as <-.
  rewrite encode_length_formula. split; [done|].
  destruct Hc as (Hne & _). destruct data; [done|]. cbn [length] in *. lia.
Qed.
(** The same for a repeat that lies in the first part of the text: the
    bound on the code then is that of the first part. *)
Lemma compress_loop_repeat_prefix r1 r2 : ∀ st p,
  pairs_only st → cs_phrase st = [p] →
  ¬ (NoDup (adjacent_pairs (p :: r1))
     ∧ ∀ k, k ∈ adjacent_pairs (p :: r1) → cs_dict st !! k = None) →
  let st' := fold_left compress_step (r1 ++ r2) st in
  ∃ v, 256 ≤ v ∧ v < cs_code st + N.of_nat (length r1)
       ∧ PNum v ∈ cs_output st' ++ [emitted (cs_dict st') (cs_phrase st')].
Proof.
  induction r1 as [|c r1 IH]; intros st p Hpairs Hphrase Hrepeat.
  - exfalso. apply Hrepeat. split; [constructor|]. by intros k Hk%elem_of_nil.
  - change (adjacent_pairs (p :: c :: r1))
      with ([p; c] :: adjacent_pairs (c :: r1)) in Hrepeat.
    change ((c :: r1) ++ r2) with (c :: (r1 ++ r2)).
    cbn [fold_left]. cbv zeta.
    destruct (cs_dict st !! [p; c]) as [v|] eqn:Hv.
    + assert (Hstep : compress_step st c
                      = mkCS (cs_dict st) (cs_output st) [p; c] (cs_code st)).
      { unfold compress_step. rewrite Hphrase. cbn [app].
        unfold dict_get. by rewrite Hv. }
      rewrite Hstep. exists v.
      destruct (proj2 Hpairs _ _ Hv) as (_ & Hlo & Hhi).
      split; [done|]. split; [lia|].
      by apply (compress_after_match (r1 ++ r2) (mkCS _ _ _ _) p c v).
    + assert (Hstep : compress_step st c
                      = mkCS (<[ [p; c] := cs_code st ]> (cs_dict st))
                             (cs_output st ++ [PNum p]) [c] (cs_code st + 1)).
      { unfold compress_step. rewrite Hphrase. cbn [app].
        rewrite dict_get_pair by done. by rewrite dict_set_pair. }
      rewrite Hstep.
      destruct (IH (mkCS (<[ [p; c] := cs_code st ]> (cs_dict st))
                         (cs_output st ++ [PNum p]) [c] (cs_code st + 1)) c)
        as (w & Hlo & Hhi & Hin).
      * destruct Hpairs as [Hcode Hpairs]. split; [cbn [cs_code]; lia|].
        intros k x. cbn [cs_dict cs_code]. intros Hk.
        destruct (decide ([p; c] = k)) as [<-|Hne].
        -- rewrite lookup_insert_eq in Hk. injection Hk as <-.
           split; [done|]. lia.
        -- rewrite lookup_insert_ne in Hk by done.
           destruct (Hpairs _ _ Hk) as (? & ? & ?). split; [done|]. lia.
      * done.
      * intros [Hnodup Hfresh]. apply Hrepeat. split.
        -- apply list.NoDup_cons. split; [|done].
           intros Hin. specialize (Hfresh _ Hin). cbn [cs_dict] in Hfresh.
           by rewrite lookup_insert_eq in Hfresh.
        -- intros k [->|Hk]%elem_of_cons; [done|].
           specialize (Hfresh _ Hk). cbn [cs_dict] in Hfresh.
           destruct (decide ([p; c] = k)) as [<-|Hne]; [done|].
           by rewrite lookup_insert_ne in Hfresh.
      * exists w. cbn [cs_code] in Hhi. cbn [length].
        split; [done|]. split; [lia | done].
Qed.

(** A text that repeats a two-character substring within its first
    65280 characters is refused, however long it is and whatever
    follows. *)
Lemma compress_repeat_throws (pre post : jsstring) :
  N.of_nat (length pre) ≤ 65280 → ¬ NoDup (adjacent_pairs pre) →
  compress (pre ++ post) = Throw InvalidCharacterError.
Proof.
  intros Hlen Hdup. destruct pre as [|c0 r1]; [by destruct Hdup; constructor|].
  change ((c0 :: r1) ++ post) with (c0 :: (r1 ++ post)). unfold compress.
  destruct (compress_loop_repeat_prefix r1 post (mkCS ∅ [] [c0] 256) c0)
    as (v & Hlo & Hhi & Hin).
  - split; [cbn; lia|]. intros k x Hk. cbn [cs_dict] in Hk.
    by rewrite lookup_empty in Hk.
  - done.
  - by intros [? _].
  - cbn [cs_code] in Hhi. cbn [length] in Hlen.
    apply (btoa_not_latin1 _ v); [|lia].
    unfold String_fromCharCode.
    apply list_elem_of_In, in_map_iff. exists (PNum v).
    split; [|by apply list_elem_of_In].
    cbn. unfold ToUint16. apply N.mod_small. lia.
Qed.

Lemma adjacent_pairs_app (a : jsstring) x y (b : jsstring) :
  adjacent_pairs (a ++ x :: y :: b)
  = adjacent_pairs (a ++ [x]) ++ [x; y] :: adjacent_pairs (y :: b).
Proof.
  induction a as [|h a IH]; [done|].
  destruct a as [|h' a]; [done|].
  change (adjacent_pairs ((h :: h' :: a) ++ x :: y :: b))
    with ([h; h'] :: adjacent_pairs ((h' :: a) ++ x :: y :: b)).
  change (adjacent_pairs ((h :: h' :: a) ++ [x]))
    with ([h; h'] :: adjacent_pairs ((h' :: a) ++ [x])).
  by rewrite IH.
Qed.

Lemma repeated_pair (a : jsstring) x y (b c : jsstring) :
  ¬ NoDup (adjacent_pairs (a ++ x :: y :: b ++ x :: y :: c)).
Proof.
  rewrite adjacent_pairs_app. intros Hnodup.
  apply list.NoDup_app in Hnodup as (_ & _ & Hnodup).
  apply list.NoDup_cons in Hnodup as [Hnotin _]. apply Hnotin.
  change (y :: b ++ x :: y :: c) with ((y :: b) ++ x :: y :: c).
  rewrite adjacent_pairs_app. apply elem_of_app. right. left.
Qed.

(** The text of a log with an entry repeats the two characters that end
    a key, within the head of the text. *)
Lemma log_head_repeats (level : jsstring) :
  ¬ NoDup (adjacent_pairs (log_head level))
  ∧ length (log_head level) = (21 + length level)%nat.
Proof.
  split.
  - assert (log_head level
            = (jstr "[{" ++ dquote ++ jstr "level")
              ++ 34 :: 58 :: (level ++ jstr "," ++ dquote ++ jstr "message")
              ++ 34 :: 58 :: []) as ->.
    { unfold log_head. rewrite <- (app_assoc level). reflexivity. }
    apply repeated_pair.
  - unfold log_head. rewrite !length_app.
    repeat match goal with
           | |- context [length (jstr ?x)] =>
               let n := eval vm_compute in (length (jstr x)) in
               change (length (jstr x)) with n
           end.
    cbn [length dquote]. lia.
Qed.

End CompressionMore.

(** ** The utility functions *)
Section UtilityMore.
Context `{P : Platform}.
Import Base64Facts.

(** X4.  [arrayBufferToBase64] never throws, and [base64ToArrayBuffer] gives
    the bytes back; the text has four base64 characters for every three
    bytes, rounded up. *)
Theorem base64_buffer_round_trip (bytes : list byte) :
  ∃ text,
    arrayBufferToBase64 bytes = Ok text
    ∧ base64ToArrayBuffer text = Ok bytes
    ∧ length text = (4 * ((length bytes + 2) / 3))%nat
    ∧ Forall (λ c, is_base64_char c = true) text.
Proof.
  exists (Base64.encode (map Byte.to_N bytes)).
  split; [apply arrayBufferToBase64_eq|].
  split; [apply base64ToArrayBuffer_encode|].
  split; [by rewrite encode_length_formula, length_map|].
  apply encode_base64_chars, bytes_latin1.
Qed.

Lemma hex_value_digit d : d < 16 → hex_value (hex_digit d) = d.
Proof.
  intros Hd. unfold hex_digit. n_compare; unfold hex_value; n_compare; lia.
Qed.

Lemma hex_digit_lower d : d < 16 → is_lower_hex (hex_digit d) = true.
Proof.
  intros Hd. unfold hex_digit. n_compare; unfold is_lower_hex; n_compare;
    try done; lia.
Qed.

(** [b.toString(16).padStart(2, "0")] is always two digits. *)
Lemma hex_of_byte (b : byte) :
  padStart2 (toString16 (Byte.to_N b))
  = [hex_digit (Byte.to_N b / 16); hex_digit (Byte.to_N b mod 16)].
Proof.
  pose proof (Byte.to_N_bounded b) as Hb. unfold toString16.
  destruct (N.ltb_spec (Byte.to_N b) 16) as [Hlt|Hge]; [|done].
  cbn [padStart2]. rewrite N.div_small, N.mod_small by done. done.
Qed.

(** X5.  [arrayBufferToHex] writes two lower-case hexadecimal digits per byte
    and loses nothing: the bytes can be read back from the text. *)
Theorem arrayBufferToHex_round_trip (buffer : list byte) :
  bytes_of_hex (arrayBufferToHex buffer) = buffer
  ∧ length (arrayBufferToHex buffer) = (2 * length buffer)%nat
  ∧ Forall (λ c, is_lower_hex c = true) (arrayBufferToHex buffer).
Proof.
  unfold arrayBufferToHex.
  induction buffer as [|b buffer (IH1 & IH2 & IH3)]; [by repeat split|].
  cbn [map concat]. rewrite hex_of_byte. cbn [app bytes_of_hex length].
  pose proof (Byte.to_N_bounded b) as Hb.
  split; [|split].
  - rewrite IH1. f_equal.
    rewrite !hex_value_digit by lia.
    apply ReferenceFacts.byte_of_N_eq. lia.
  - rewrite IH2. lia.
  - repeat (constructor; [apply hex_digit_lower; lia|]). done.
Qed.

Variable SHA_256 : list byte → list byte.

(** X6.  [verifyIntegrity(data, await generateHash(other))] holds exactly
    when the two digests are the same bytes. *)
Theorem verifyIntegrity_generateHash (data other : jsstring) :
  verifyIntegrity SHA_256 data (generateHash SHA_256 other) = true
  ↔ SHA_256 (TextEncoder_encode data) = SHA_256 (TextEncoder_encode other).
Proof.
  unfold verifyIntegrity, generateHash. rewrite bool_decide_eq_true. split.
  - intros Heq. apply (f_equal bytes_of_hex) in Heq.
    by rewrite !(proj1 (arrayBufferToHex_round_trip _)) in Heq.
  - by intros ->.
Qed.

(** X7.  [verifyIntegrity] compares text: an expected hash with a character
    that is not a lower-case hexadecimal digit (upper case, a prefix, a
    space), or of another length than two characters per digest byte, is
    refused. *)
Theorem verifyIntegrity_format (data expectedHash : jsstring) :
  verifyIntegrity SHA_256 data expectedHash = true →
  Forall (λ c, is_lower_hex c = true) expectedHash
  ∧ length expectedHash
    = (2 * length (SHA_256 (TextEncoder_encode data)))%nat.
Proof.
  unfold verifyIntegrity, generateHash. rewrite bool_decide_eq_true.
  intros <-. split; apply arrayBufferToHex_round_trip.
Qed.

End UtilityMore.

(** ** The engine, further *)
Section EngineMoreFacts.
Context `{P : Platform}.
Import Base64Facts.

Lemma atob_error s e : atob s = Throw e → e = InvalidCharacterError.
Proof. unfold atob. repeat case_match; congruence. Qed.

Lemma base64ToArrayBuffer_error s e :
  base64ToArrayBuffer s = Throw e → e = InvalidCharacterError.
Proof.
  unfold base64ToArrayBuffer. destruct (atob s) eqn:Hatob; [done|].
  intros [= <-]. by eapply atob_error.
Qed.

Lemma encode_not_empty l : l ≠ [] → Base64.encode l ≠ [].
Proof.
  intros Hl Hnil. apply (f_equal length) in Hnil.
  rewrite encode_length_formula in Hnil. destruct l; [done|].
  cbn [length] in Hnil. lia.
Qed.

(** [initialize], case by case. *)
Lemma initialize_eq (s : Machine) (pw : jsstring) :
  initialize pw s =
    match localStorage s !! enc_salt with
    | Some (c :: r) =>
        match base64ToArrayBuffer (c :: r) with
        | Ok saltBuffer =>
            (Ok true,
             mkMachine true
               (Some (PBKDF2_SHA256 (TextEncoder_encode pw) saltBuffer
                        keyDerivationIterations 256))
               (localStorage s) (entropy s) (drawn s)
               (trace s ++ [EvDeriveKey (TextEncoder_encode pw) saltBuffer
                              keyDerivationIterations; EvConsoleLog]))
        | Throw e => (Ok false, logged s [EvConsoleError e])
        end
    | _ =>
        let bytes := next_random s saltLength in
        let salt := Base64.encode (map Byte.to_N bytes) in
        (Ok true,
         mkMachine true
           (Some (PBKDF2_SHA256 (TextEncoder_encode pw) bytes
                    keyDerivationIterations 256))
           (<[enc_salt := salt]> (localStorage s)) (entropy s)
           (drawn s + saltLength)%nat
           (trace s ++ [EvGetRandomValues saltLength; EvSetItem enc_salt salt;
                        EvDeriveKey (TextEncoder_encode pw) bytes
                          keyDerivationIterations; EvConsoleLog]))
    end.
Proof.
  destruct s as [init key ls ent dr tr]. cbn [localStorage].
  unfold initialize. unfold_M. cbn.
  destruct (ls !! enc_salt) as [[|c r]|] eqn:Hsalt; cbn.
  - rewrite arrayBufferToBase64_eq. cbn.
    rewrite base64ToArrayBuffer_encode. unfold logged. cbn.
    by rewrite <- ?app_assoc.
  - destruct (base64ToArrayBuffer (c :: r)); unfold logged; cbn;
      by rewrite <- ?app_assoc.
  - rewrite arrayBufferToBase64_eq. cbn.
    rewrite base64ToArrayBuffer_encode. unfold logged. cbn.
    by rewrite <- ?app_assoc.
Qed.

(** X8.  [initialize] never throws.  It returns [false] only when the stored
    salt is a non-empty string that is not base64, and then the instance
    keeps its fields, the storage and the random cursor: an engine that
    was ready stays ready with its old key.  A stored salt that is the
    empty string counts as absent and is overwritten by a new one. *)
Theorem initialize_outcome (s : Machine) (pw : jsstring) :
  (∃ b s', initialize pw s = (Ok b, s'))
  ∧ (∀ s', initialize pw s = (Ok false, s') →
       s' = logged s [EvConsoleError InvalidCharacterError]
       ∧ ∃ salt, localStorage s !! enc_salt = Some salt ∧ salt ≠ []
                 ∧ atob salt = Throw InvalidCharacterError)
  ∧ (localStorage s !! enc_salt = Some [] →
     (initialize pw s).1 = Ok true
     ∧ localStorage (initialize pw s).2 !! enc_salt
       = Some (Base64.encode (map Byte.to_N (next_random s saltLength)))).
Proof.
  rewrite initialize_eq.
  destruct (localStorage s !! enc_salt) as [[|c r]|] eqn:Hsalt.
  - split; [eauto|]. split; [done|]. intros _. cbn [fst snd localStorage].
    split; [done|]. apply lookup_insert_eq.
  - destruct (base64ToArrayBuffer (c :: r)) as [buf|e] eqn:Hbuf.
    + split; [eauto|]. split; done.
    + split; [eauto|]. split; [|done].
      intros s' [= <-].
      pose proof (base64ToArrayBuffer_error _ _ Hbuf) as ->.
      split; [done|]. exists (c :: r). split; [done|]. split; [done|].
      unfold base64ToArrayBuffer in Hbuf.
      destruct (atob (c :: r)) as [?|e'] eqn:Hatob; [done|].
      by rewrite (atob_error _ _ Hatob).
  - split; [eauto|]. split; done.
Qed.

(** After a successful [initialize] the storage holds a non-empty salt
    that decodes, and the key is the one PBKDF2 derives from the
    password and that salt. *)
Lemma initialize_true_inv (s s' : Machine) (pw : jsstring) :
  initialize pw s = (Ok true, s') →
  isInitialized s' = true
  ∧ ∃ salt saltBuffer,
      localStorage s' !! enc_salt = Some salt ∧ salt ≠ []
      ∧ base64ToArrayBuffer salt = Ok saltBuffer
      ∧ masterKey s'
        = Some (PBKDF2_SHA256 (TextEncoder_encode pw) saltBuffer
                  keyDerivationIterations 256).
Proof.
  rewrite initialize_eq.
  assert (Hnew : ∀ bytes, length bytes = saltLength →
            base64ToArrayBuffer (Base64.encode (map Byte.to_N bytes)) = Ok bytes
            ∧ Base64.encode (map Byte.to_N bytes) ≠ []).
  { intros bytes Hlen. split; [apply base64ToArrayBuffer_encode|].
    apply encode_not_empty. destruct bytes; [done|]. done. }
  destruct (localStorage s !! enc_salt) as [[|c r]|] eqn:Hsalt.
  - cbv zeta. intros Heq. apply pair_equal_spec in Heq as [_ <-].
    split; [done|]. cbn [localStorage masterKey].
    destruct (Hnew (next_random s saltLength) (next_random_length _ _)).
    eexists _, _. split; [apply lookup_insert_eq|]. done.
  - destruct (base64ToArrayBuffer (c :: r)) as [buf|e] eqn:Hbuf; [|done].
    intros Heq. apply pair_equal_spec in Heq as [_ <-].
    split; [done|]. cbn [localStorage masterKey].
    exists (c :: r), buf. done.
  - cbv zeta. intros Heq. apply pair_equal_spec in Heq as [_ <-].
    split; [done|]. cbn [localStorage masterKey].
    destruct (Hnew (next_random s saltLength) (next_random_length _ _)).
    eexists _, _. split; [apply lookup_insert_eq|]. done.
Qed.

(** X9.  The key depends on the password and the stored salt alone: two
    instances that find the same salt and are given the same password
    derive the same key. *)
Theorem initialize_same_key (s1 s2 s1' : Machine) (pw salt : jsstring) :
  localStorage s1 !! enc_salt = Some salt →
  localStorage s2 !! enc_salt = Some salt →
  salt ≠ [] →
  initialize pw s1 = (Ok true, s1') →
  ∃ s2', initialize pw s2 = (Ok true, s2')
         ∧ masterKey s2' = masterKey s1'
         ∧ isInitialized s2' = true
         ∧ localStorage s2' = localStorage s2.
Proof.
  intros H1 H2 Hne. rewrite !initialize_eq, H1, H2.
  destruct salt as [|c r]; [done|].
  destruct (base64ToArrayBuffer (c :: r)) as [buf|e]; [|done].
  intros Heq. apply pair_equal_spec in Heq as [_ <-].
  eexists. split; [done|]. done.
Qed.

Lemma encrypt_frame (s : Machine) data c :
  isInitialized (encrypt data c s).2 = isInitialized s
  ∧ masterKey (encrypt data c s).2 = masterKey s
  ∧ localStorage (encrypt data c s).2 = localStorage s
  ∧ entropy (encrypt data c s).2 = entropy s.
Proof.
  destruct s as [init key ls ent dr tr].
  unfold encrypt. unfold_M. cbn. destruct init; cbn; [|done].
  destruct (processed data c); cbn; [|done].
  unfold subtle_encrypt. destruct key as [k|]; unfold_M; cbn; [|done].
  destruct (AES_GCM_encrypt k _ _ _). cbn.
  rewrite arrayBufferToBase64_eq. done.
Qed.

Lemma decrypt_frame (s : Machine) encryptedData d :
  isInitialized (decrypt encryptedData d s).2 = isInitialized s
  ∧ masterKey (decrypt encryptedData d s).2 = masterKey s
  ∧ localStorage (decrypt encryptedData d s).2 = localStorage s
  ∧ entropy (decrypt encryptedData d s).2 = entropy s
  ∧ drawn (decrypt encryptedData d s).2 = drawn s.
Proof.
  destruct s as [init key ls ent dr tr].
  unfold decrypt. unfold_M. cbn. destruct init; cbn; [|done].
  destruct (base64ToArrayBuffer encryptedData); cbn; [|done].
  unfold subtle_decrypt. destruct key as [k|]; unfold_M; cbn; [|done].
  repeat (case_match; simplify_eq; cbn; try done).
Qed.

(** X10.  [encrypt] and [decrypt] leave the fields of the instance and the
    storage as they are; [decrypt] draws no random byte. *)
Theorem crypto_frame (s : Machine) data c encryptedData d :
  (isInitialized (encrypt data c s).2 = isInitialized s
   ∧ masterKey (encrypt data c s).2 = masterKey s
   ∧ localStorage (encrypt data c s).2 = localStorage s
   ∧ entropy (encrypt data c s).2 = entropy s)
  ∧ (isInitialized (decrypt encryptedData d s).2 = isInitialized s
     ∧ masterKey (decrypt encryptedData d s).2 = masterKey s
     ∧ localStorage (decrypt encryptedData d s).2 = localStorage s
     ∧ entropy (decrypt encryptedData d s).2 = entropy s
     ∧ drawn (decrypt encryptedData d s).2 = drawn s).
Proof. split; [apply encrypt_frame | apply decrypt_frame]. Qed.

End EngineMoreFacts.

(** ** The key-value store *)
Section StoreMoreFacts.
Context `{P : Platform}.
Import Base64Facts.

Lemma sec_not_enc_salt key : sec_ key ≠ enc_salt.
Proof. intros Heq. apply (f_equal head) in Heq. vm_compute in Heq. done. Qed.

Lemma sec_inj key key' : sec_ key = sec_ key' → key = key'.
Proof. unfold sec_. apply app_inv_head. Qed.

Lemma sec_startsWith key : startsWith (jstr "sec_") (sec_ key) = true.
Proof.
  unfold startsWith, sec_. apply bool_decide_eq_true. apply take_app_length.
Qed.

(** What a successful [secureStore] did. *)
Lemma secureStore_true_inv (s s1 : Machine) key v :
  secureStore key v s = (Ok true, s1) →
  ∃ k text,
    isInitialized s = true ∧ masterKey s = Some k
    ∧ processed v true = Ok text
    ∧ s1 = mkMachine true (Some k)
             (<[sec_ key :=
                  Base64.encode
                    (map Byte.to_N
                       (next_random s ivLength
                        ++ (AES_GCM_encrypt k (next_random s ivLength) 128
                              (TextEncoder_encode text)).1
                        ++ (AES_GCM_encrypt k (next_random s ivLength) 128
                              (TextEncoder_encode text)).2))]>
                (localStorage s))
             (entropy s) (drawn s + ivLength)%nat
             (trace s
              ++ [EvGetRandomValues ivLength;
                  EvEncrypt (next_random s ivLength) (TextEncoder_encode text)]
              ++ [EvSetItem (sec_ key)
                    (Base64.encode
                       (map Byte.to_N
                          (next_random s ivLength
                           ++ (AES_GCM_encrypt k (next_random s ivLength) 128
                                 (TextEncoder_encode text)).1
                           ++ (AES_GCM_encrypt k (next_random s ivLength) 128
                                 (TextEncoder_encode text)).2)));
                  EvConsoleLog]).
Proof.
  rewrite secureStore_eq.
  destruct (encrypt v true s) as [[envelope|e] s0] eqn:Henc; [|done].
  destruct (encrypt_ok_ready _ _ _ _ _ Henc) as [Hinit [k Hkey]].
  rewrite (encrypt_ready s k) in Henc by done.
  destruct (processed v true) as [text|e]; [|done].
  cbv zeta in Henc. apply pair_equal_spec in Henc as [Henv Hs0].
  apply Ok_inj in Henv. subst envelope s0.
  intros Heq. apply pair_equal_spec in Heq as [_ <-].
  exists k, text. cbn [isInitialized masterKey localStorage entropy drawn trace].
  rewrite <- app_assoc. done.
Qed.

(** Reading back an envelope that sits in the store. *)
Lemma stored_envelope_retrieves (s : Machine) k key iv pt text :
  AES_GCM_tag_length → AES_GCM_opens →
  isInitialized s = true → masterKey s = Some k →
  length iv = ivLength →
  decompress (TextDecoder_decode pt) = Ok text →
  localStorage s !! sec_ key
  = Some (Base64.encode
            (map Byte.to_N (iv ++ (AES_GCM_encrypt k iv 128 pt).1
                               ++ (AES_GCM_encrypt k iv 128 pt).2))) →
  ∃ s', secureRetrieve key s = (Ok (parse_or_raw text), s').
Proof.
  intros Htag Hopens Hinit Hkey Hiv Htext Hstored.
  rewrite (secureRetrieve_stored s key _ Hstored).
  - rewrite (decrypt_sealed s k) by done. rewrite Htext. eauto.
  - apply encode_not_empty. destruct iv; [done|]. done.
Qed.

Lemma compressed_text_reads_back (v : Value) :
  UTF8_ascii → compressible (dataString v) →
  ∃ text, processed v true = Ok text
          ∧ decompress (TextDecoder_decode (TextEncoder_encode text))
            = Ok (dataString v).
Proof.
  intros Hascii Hc.
  by apply (processed_reads_back v true).
Qed.

Lemma secureStore_then_retrieve (s s1 : Machine) key (v : Value) :
  AES_GCM_tag_length → AES_GCM_opens → UTF8_ascii →
  parse_or_raw (dataString v) = v →
  compressible (dataString v) →
  secureStore key v s = (Ok true, s1) →
  ∃ s2, secureRetrieve key s1 = (Ok v, s2).
Proof.
  intros Htag Hopens Hascii Hparse Hc Hstore.
  destruct (secureStore_true_inv _ _ _ _ Hstore)
    as (k & text & Hinit & Hkey & Htext & ->).
  destruct (compressed_text_reads_back v Hascii Hc) as (text' & Htext' & Hback).
  rewrite Htext in Htext'. apply Ok_inj in Htext' as <-.
  match goal with
  | |- ∃ s2, secureRetrieve key ?m = _ =>
      destruct (stored_envelope_retrieves m k key (next_random s ivLength)
                  (TextEncoder_encode text) (dataString v)) as [s2 Hret];
        [done | done | done | done | apply next_random_length | exact Hback
        | cbn [localStorage]; apply lookup_insert_eq |]
  end.
  rewrite Hparse in Hret. eauto.
Qed.

(** What [secureRetrieve] returns after a successful [secureStore], on
    an engine with the key [k], for any storage in which the slot still
    holds the envelope: the text of the value, read back by the
    parse-or-raw rule of [decrypt]. *)
Lemma stored_text_retrieves (s m : Machine) k key (v : Value) text :
  AES_GCM_tag_length → AES_GCM_opens → UTF8_ascii →
  compressible (dataString v) →
  processed v true = Ok text →
  isInitialized m = true → masterKey m = Some k →
  localStorage m !! sec_ key
  = Some (Base64.encode
            (map Byte.to_N
               (next_random s ivLength
                ++ (AES_GCM_encrypt k (next_random s ivLength) 128
                      (TextEncoder_encode text)).1
                ++ (AES_GCM_encrypt k (next_random s ivLength) 128
                      (TextEncoder_encode text)).2))) →
  ∃ s', secureRetrieve key m = (Ok (parse_or_raw (dataString v)), s').
Proof.
  intros Htag Hopens Hascii Hc Htext Hinit Hkey Hstored.
  destruct (compressed_text_reads_back v Hascii Hc) as (text' & Htext' & Hback).
  rewrite Htext in Htext'. apply Ok_inj in Htext' as <-.
  apply (stored_envelope_retrieves m k key (next_random s ivLength)
           (TextEncoder_encode text) (dataString v));
    done || apply next_random_length.
Qed.

(** X11.  What [secureStore] stored, [secureRetrieve] returns, for a value
    that round-trips. *)
Theorem secureStore_secureRetrieve (s s1 : Machine) key (v : Value) :
  AES_GCM_tag_length → AES_GCM_opens → UTF8_ascii →
  parse_or_raw (dataString v) = v →
  compressible (dataString v) →
  secureStore key v s = (Ok true, s1) →
  ∃ s2, secureRetrieve key s1 = (Ok v, s2).
Proof. apply secureStore_then_retrieve. Qed.

(** X12.  Storing twice under one key: the storage differs from the
    storage before the first call in the one slot, which holds the
    envelope of the second call.  And when the text of the second value
    is one the compression pass accepts, [secureRetrieve] returns what
    that text reads back as under the parse-or-raw rule of [decrypt]:
    the second value itself when its text reads back as itself. *)
Theorem secureStore_overwrite (s s1 s2 : Machine) key (v1 v2 : Value) :
  secureStore key v1 s = (Ok true, s1) →
  secureStore key v2 s1 = (Ok true, s2) →
  (∃ envelope2 s',
     encrypt v2 true s1 = (Ok envelope2, s')
     ∧ localStorage s2 = <[sec_ key := envelope2]> (localStorage s))
  ∧ (AES_GCM_tag_length → AES_GCM_opens → UTF8_ascii →
     compressible (dataString v2) →
     (∃ s3, secureRetrieve key s2 = (Ok (parse_or_raw (dataString v2)), s3))
     ∧ (parse_or_raw (dataString v2) = v2 →
        ∃ s3, secureRetrieve key s2 = (Ok v2, s3))).
Proof.
  intros Hstore1 Hstore2.
  destruct (secureStore_true_inv _ _ _ _ Hstore1)
    as (k & text & _ & _ & _ & ->).
  destruct (secureStore_true_inv _ _ _ _ Hstore2)
    as (k' & text' & Hinit' & Hkey' & Htext' & ->).
  split.
  - eexists _, _. split.
    + rewrite (encrypt_ready _ k') by done. rewrite Htext'. cbv zeta.
      reflexivity.
    + cbn [localStorage]. apply insert_insert_eq.
  - intros Htag Hopens Hascii Hc.
    match goal with
    | |- (∃ s3, secureRetrieve key ?m = _) ∧ _ =>
        destruct (stored_text_retrieves
                    (mkMachine true (Some k)
                       (<[sec_ key :=
                            Base64.encode
                              (map Byte.to_N
                                 (next_random s ivLength
                                  ++ (AES_GCM_encrypt k (next_random s ivLength)
                                        128 (TextEncoder_encode text)).1
                                  ++ (AES_GCM_encrypt k (next_random s ivLength)
                                        128 (TextEncoder_encode text)).2))]>
                          (localStorage s))
                       (entropy s) (drawn s + ivLength)%nat
                       (trace s
                        ++ [EvGetRandomValues ivLength;
                            EvEncrypt (next_random s ivLength)
                              (TextEncoder_encode text)]
                        ++ [EvSetItem (sec_ key)
                              (Base64.encode
                                 (map Byte.to_N
                                    (next_random s ivLength
                                     ++ (AES_GCM_encrypt k
                                           (next_random s ivLength) 128
                                           (TextEncoder_encode text)).1
                                     ++ (AES_GCM_encrypt k
                                           (next_random s ivLength) 128
                                           (TextEncoder_encode text)).2)));
                            EvConsoleLog]))
                    m k' key v2 text') as [s3 Hret];
          [done | done | done | done | done | done | done
          | cbn [localStorage]; apply lookup_insert_eq |]
    end.
    split; [by exists s3|].
    intros Hparse. exists s3. by rewrite Hparse in Hret.
Qed.

(** X13.  A second instance started on the storage a first one left,
    with the same password, derives the same key and leaves the storage
    as it found it.  And when the text of the stored value is one the
    compression pass accepts, [secureRetrieve] on the second instance
    returns what that text reads back as under the parse-or-raw rule of
    [decrypt]: the stored value itself when its text reads back as
    itself. *)
Theorem retrieve_in_new_session (s0 s1 s2 : Machine) (pw key : jsstring) (v : Value)
    (rnd : nat → byte) :
  initialize pw s0 = (Ok true, s1) →
  secureStore key v s1 = (Ok true, s2) →
  ∃ s3,
    initialize pw (constructor (localStorage s2) rnd) = (Ok true, s3)
    ∧ masterKey s3 = masterKey s1
    ∧ localStorage s3 = localStorage s2
    ∧ (AES_GCM_tag_length → AES_GCM_opens → UTF8_ascii →
       compressible (dataString v) →
       (∃ s4, secureRetrieve key s3
              = (Ok (parse_or_raw (dataString v)), s4))
       ∧ (parse_or_raw (dataString v) = v →
          ∃ s4, secureRetrieve key s3 = (Ok v, s4))).
Proof.
  intros Hinit Hstore.
  destruct (initialize_true_inv _ _ _ Hinit)
    as (_ & salt & buf & Hsalt & Hne & Hbuf & Hkey1).
  destruct (secureStore_true_inv _ _ _ _ Hstore)
    as (k & text & _ & Hkey & Htext & ->).
  rewrite initialize_eq. cbn [constructor localStorage].
  rewrite lookup_insert_ne by apply sec_not_enc_salt.
  rewrite Hsalt. destruct salt as [|c r]; [done|]. rewrite Hbuf.
  eexists _. split; [reflexivity|].
  rewrite Hkey1 in Hkey. injection Hkey as Hk.
  split; [by rewrite Hkey1|]. split; [done|].
  intros Htag Hopens Hascii Hc.
  match goal with
  | |- (∃ s4, secureRetrieve key ?m = _) ∧ _ =>
      destruct (stored_text_retrieves s1 m k key v text) as [s4 Hret];
        [done | done | done | done | done | done
        | cbn [masterKey]; by rewrite Hk
        | cbn [localStorage]; apply lookup_insert_eq |]
  end.
  split; [by exists s4|].
  intros Hparse. exists s4. by rewrite Hparse in Hret.
Qed.

(** X15.  [secureStore] never throws.  When it returns [false] the storage
    and the fields of the instance are as before; on an instance that
    is not initialised it always returns [false]. *)
Theorem secureStore_failure (s : Machine) key (v : Value) :
  (∃ b s', secureStore key v s = (Ok b, s'))
  ∧ ((secureStore key v s).1 = Ok false →
     localStorage (secureStore key v s).2 = localStorage s
     ∧ isInitialized (secureStore key v s).2 = isInitialized s
     ∧ masterKey (secureStore key v s).2 = masterKey s)
  ∧ (isInitialized s = false →
     secureStore key v s
     = (Ok false, logged s [EvConsoleError NotInitializedError])).
Proof.
  rewrite secureStore_eq.
  pose proof (encrypt_frame s v true) as (Hf1 & Hf2 & Hf3 & _).
  split; [|split].
  - destruct (encrypt v true s) as [[?|?] ?]; eauto.
  - destruct (encrypt v true s) as [[?|?] ?]; [done|].
    intros _. cbn in *. done.
  - intros Hinit.
    assert (encrypt v true s = (Throw NotInitializedError, s)) as ->; [|done].
    unfold encrypt, mbind, M_bind, get, throw. by rewrite Hinit.
Qed.

(** X14.  On a ready engine, and for a text of at most 65280 characters,
    [secureStore] returns [true] exactly when the text of the value is
    one the compression pass accepts. *)
Theorem secureStore_true_iff (s : Machine) k key (v : Value) :
  isInitialized s = true → masterKey s = Some k →
  N.of_nat (length (dataString v)) ≤ 65280 →
  Forall (λ c, c < 65536) (dataString v) →
  (secureStore key v s).1 = Ok true ↔ compressible (dataString v).
Proof.
  intros Hinit Hkey Hlen H16.
  rewrite secureStore_eq, (encrypt_ready s k) by done.
  unfold processed.
  destruct (compress_spec (dataString v) Hlen H16)
    as [[Hnil ->]|[[Hc ->]|(_ & Hnc & ->)]]; cbn.
  - split; [done|]. by intros (Hne & _).
  - done.
  - split; [done|]. intros Hc. by destruct Hnc.
Qed.

(** X16.  [secureRetrieve] never throws and never writes: whatever happens it
    returns a value, and the storage, the fields of the instance and
    the random cursor are as before.  On an instance that is not
    initialised it returns [null] for every key. *)
Theorem secureRetrieve_read_only (s : Machine) key :
  (∃ v s', secureRetrieve key s = (Ok v, s')
           ∧ localStorage s' = localStorage s
           ∧ isInitialized s' = isInitialized s
           ∧ masterKey s' = masterKey s
           ∧ drawn s' = drawn s)
  ∧ (isInitialized s = false → (secureRetrieve key s).1 = Ok null_value).
Proof.
  destruct (localStorage s !! sec_ key) as [[|c r]|] eqn:Hstored.
  1,3: (assert (secureRetrieve key s = (Ok null_value, s)) as ->
          by (unfold secureRetrieve, try_catch, mbind, M_bind, getItem;
              by rewrite Hstored);
        split; [by eexists _, _ | done]).
  rewrite (secureRetrieve_stored s key (c :: r)) by done.
  pose proof (decrypt_frame s (c :: r) true) as (Hf1 & Hf2 & Hf3 & _ & Hf5).
  split.
  - destruct (decrypt (c :: r) true s) as [[v|e] s1]; cbn in *;
      eexists _, _; (split; [done|]); done.
  - intros Hinit.
    assert (decrypt (c :: r) true s = (Throw NotInitializedError, s)) as ->;
      [|done].
    unfold decrypt, mbind, M_bind, get, throw. by rewrite Hinit.
Qed.

(** X17.  [decrypt] on a ready engine refuses a text that is not base64 with
    the error of [atob], before the cipher is called, and an envelope of
    fewer than 28 bytes with the OperationError of the cipher. *)
Theorem decrypt_malformed (s : Machine) k encryptedData d :
  isInitialized s = true → masterKey s = Some k →
  (∀ e, atob encryptedData = Throw e →
     decrypt encryptedData d s
     = (Throw InvalidCharacterError,
        logged s [EvConsoleError InvalidCharacterError]))
  ∧ (∀ bytes, base64ToArrayBuffer encryptedData = Ok bytes →
       (length bytes < 28)%nat →
       decrypt encryptedData d s
       = (Throw OperationError,
          logged s [EvDecrypt (take ivLength bytes) (drop ivLength bytes);
                    EvConsoleError OperationError])).
Proof.
  intros Hinit Hkey. rewrite (decrypt_ready s k) by done. split.
  - intros e Hatob. unfold base64ToArrayBuffer. rewrite Hatob.
    by rewrite (atob_error _ _ Hatob).
  - intros bytes -> Hshort. cbv zeta.
    assert ((length (drop ivLength bytes) <? 16)%nat = true) as ->; [|done].
    apply Nat.ltb_lt. rewrite length_drop. unfold ivLength. lia.
Qed.

End StoreMoreFacts.

(** ** Deletion, locking, restoring, statistics *)
Section DeleteMoreFacts.
Context `{P : Platform}.
Import Base64Facts.

(** [secureDelete], step by step. *)
Lemma secureDelete_eq (s : Machine) key :
  secureDelete key s
  = (Ok true,
     mkMachine (isInitialized s) (masterKey s)
               (delete (sec_ key) (localStorage s)) (entropy s)
               (drawn s + 1024)%nat
               (trace s
                ++ [EvGetRandomValues 1024;
                    EvSetItem (sec_ key)
                      (Base64.encode (map Byte.to_N (next_random s 1024)));
                    EvConsoleLog])).
Proof.
  destruct s as [init key0 ls ent dr tr].
  unfold secureDelete, removeItem. unfold_M. cbn.
  rewrite arrayBufferToBase64_eq. unfold logged. cbn.
  rewrite delete_insert_eq. by rewrite <- ?app_assoc.
Qed.

(** X18.  [secureDelete] needs no initialisation.  It draws 1024 random
    bytes, writes their 1368 base64 characters into the slot, whatever
    was there and however long it was, and then removes the slot; the
    rest of the storage and the fields of the instance are as before. *)
Theorem secureDelete_effect (s : Machine) key :
  let overwrite := Base64.encode (map Byte.to_N (next_random s 1024)) in
  let s' := (secureDelete key s).2 in
  (secureDelete key s).1 = Ok true
  ∧ length overwrite = 1368%nat
  ∧ trace s' = trace s ++ [EvGetRandomValues 1024;
                           EvSetItem (sec_ key) overwrite; EvConsoleLog]
  ∧ localStorage s' = delete (sec_ key) (localStorage s)
  ∧ isInitialized s' = isInitialized s ∧ masterKey s' = masterKey s.
Proof.
  cbv zeta. rewrite secureDelete_eq.
  cbn [fst snd trace localStorage isInitialized masterKey].
  split; [reflexivity|]. split; [|by repeat split].
  rewrite encode_length_formula, length_map, next_random_length.
  reflexivity.
Qed.

(** X19.  After [secureDelete(key)], [secureRetrieve(key)] returns [null] and
    changes nothing. *)
Theorem secureDelete_secureRetrieve (s : Machine) key :
  secureRetrieve key (secureDelete key s).2
  = (Ok null_value, (secureDelete key s).2).
Proof.
  rewrite secureDelete_eq. cbn [snd].
  unfold secureRetrieve, try_catch, mbind, M_bind, getItem.
  cbn [localStorage]. by rewrite lookup_delete_eq.
Qed.

(** The value [decrypt] returns depends on the instance only through
    [isInitialized] and the key. *)
Lemma decrypt_value (s s' : Machine) encryptedData d :
  isInitialized s = isInitialized s' → masterKey s = masterKey s' →
  (decrypt encryptedData d s).1 = (decrypt encryptedData d s').1.
Proof.
  destruct s as [init key ls ent dr tr], s' as [init' key' ls' ent' dr' tr'].
  cbn. intros <- <-.
  unfold decrypt. unfold_M. cbn. destruct init; cbn; [|done].
  destruct (base64ToArrayBuffer encryptedData); cbn; [|done].
  unfold subtle_decrypt. destruct key as [k|]; unfold_M; cbn; [|done].
  repeat (case_match; simplify_eq; cbn; try done).
Qed.

Lemma secureRetrieve_value (s s' : Machine) key :
  isInitialized s = isInitialized s' → masterKey s = masterKey s' →
  localStorage s !! sec_ key = localStorage s' !! sec_ key →
  (secureRetrieve key s).1 = (secureRetrieve key s').1.
Proof.
  intros Hinit Hkey Hlook.
  destruct (localStorage s !! sec_ key) as [[|c r]|] eqn:Hstored.
  1,3: (unfold secureRetrieve, try_catch, mbind, M_bind, getItem;
        by rewrite Hstored, <- Hlook).
  rewrite (secureRetrieve_stored s key (c :: r)) by done.
  rewrite (secureRetrieve_stored s' key (c :: r)) by done.
  pose proof (decrypt_value s s' (c :: r) true Hinit Hkey) as Hval.
  destruct (decrypt (c :: r) true s) as [[?|?] ?],
           (decrypt (c :: r) true s') as [[?|?] ?]; cbn in *; congruence.
Qed.

(** X20.  Deleting one key does not change what any other key retrieves. *)
Theorem secureDelete_other_keys (s : Machine) key key' :
  key' ≠ key →
  localStorage (secureDelete key s).2 !! sec_ key'
  = localStorage s !! sec_ key'
  ∧ (secureRetrieve key' (secureDelete key s).2).1
    = (secureRetrieve key' s).1.
Proof.
  intros Hne.
  assert (Hlook : localStorage (secureDelete key s).2 !! sec_ key'
                  = localStorage s !! sec_ key').
  { rewrite secureDelete_eq. cbn [snd localStorage].
    apply lookup_delete_ne. intros Heq. by apply sec_inj in Heq. }
  split; [done|].
  apply secureRetrieve_value; [| |done]; by rewrite secureDelete_eq.
Qed.

(** [encrypt] on an instance that is initialised but has no key. *)
Lemma encrypt_without_key (s : Machine) data c :
  isInitialized s = true → masterKey s = None →
  encrypt data c s =
    match processed data c with
    | Ok text =>
        (Throw TypeError,
         mkMachine true None (localStorage s) (entropy s)
                   (drawn s + ivLength)%nat
                   (trace s ++ [EvGetRandomValues ivLength;
                                EvConsoleError TypeError]))
    | Throw e => (Throw e, logged s [EvConsoleError e])
    end.
Proof.
  destruct s as [init key0 ls ent dr tr]. cbn. intros -> ->.
  unfold encrypt. unfold_M. cbn.
  destruct (processed data c) as [text|e]; cbn; [|done].
  unfold subtle_encrypt. unfold_M. unfold logged. cbn.
  by rewrite <- ?app_assoc.
Qed.

(** X21.  [clearSensitiveData] takes the key away but leaves
    [isInitialized] set.  From then on [encrypt] never returns an
    envelope: when the text passes the processing step it draws a nonce
    and fails with a TypeError, and when the compression pass refuses
    the text it fails with the error of that pass and draws nothing.
    [decrypt] never returns either: a TypeError on a base64 text, the
    error of [atob] on any other.  [secureStore] returns [false] and
    [secureRetrieve] returns [null] for every key. *)
Theorem clearSensitiveData_locks (s : Machine)
    (sessionStorage : gmap jsstring jsstring) :
  isInitialized s = true →
  let s' := (clearSensitiveData s sessionStorage).1 in
  isInitialized s' = true ∧ masterKey s' = None
  ∧ localStorage s' = localStorage s
  ∧ (∀ data c,
       match processed data c with
       | Ok _ =>
           (encrypt data c s').1 = Throw TypeError
           ∧ drawn (encrypt data c s').2 = (drawn s + 12)%nat
       | Throw e =>
           (encrypt data c s').1 = Throw e
           ∧ drawn (encrypt data c s').2 = drawn s
       end)
  ∧ (∀ encryptedData d,
       (decrypt encryptedData d s').1
       = match base64ToArrayBuffer encryptedData with
         | Ok _ => Throw TypeError
         | Throw _ => Throw InvalidCharacterError
         end)
  ∧ (∀ key v, (secureStore key v s').1 = Ok false)
  ∧ (∀ key, (secureRetrieve key s').1 = Ok null_value).
Proof.
  destruct s as [init key0 ls ent dr tr]. cbn. intros ->.
  assert (Henc : ∀ data c,
            ∃ e s1, encrypt data c (mkMachine true None ls ent dr tr)
                    = (Throw e, s1)
                    ∧ match processed data c with
                      | Ok _ => e = TypeError ∧ drawn s1 = (dr + 12)%nat
                      | Throw e' => e = e' ∧ drawn s1 = dr
                      end).
  { intros data c. rewrite encrypt_without_key by done.
    destruct (processed data c) as [text|e]; eexists _, _; (split; [done|]);
      done. }
  assert (Hdec : ∀ encryptedData d,
            ∃ e s1, decrypt encryptedData d (mkMachine true None ls ent dr tr)
                    = (Throw e, s1)
                    ∧ e = match base64ToArrayBuffer encryptedData with
                          | Ok _ => TypeError
                          | Throw _ => InvalidCharacterError
                          end).
  { intros encryptedData d. unfold decrypt. unfold_M. cbn.
    destruct (base64ToArrayBuffer encryptedData) as [bytes|e] eqn:Hb; cbn.
    - unfold subtle_decrypt. unfold_M. cbn. eexists _, _. by split.
    - apply base64ToArrayBuffer_error in Hb as ->. eexists _, _. by split. }
  split; [done|]. split; [done|]. split; [done|]. split; [|split; [|split]].
  - intros data c.
    destruct (Henc data c) as (e & s1 & -> & He).
    destruct (processed data c); by destruct He as [-> ?].
  - intros encryptedData d.
    destruct (Hdec encryptedData d) as (e & s1 & -> & ->). cbn.
    by destruct (base64ToArrayBuffer encryptedData).
  - intros key v. rewrite secureStore_eq.
    by destruct (Henc v true) as (e & s1 & -> & _).
  - intros key.
    destruct (ls !! sec_ key) as [[|c r]|] eqn:Hstored.
    1,3: (unfold secureRetrieve, try_catch, mbind, M_bind, getItem;
          cbn [localStorage]; by rewrite Hstored).
    rewrite (secureRetrieve_stored _ key (c :: r)) by done.
    by destruct (Hdec (c :: r) true) as (e & s1 & -> & _).
Qed.

(** X22.  After [clearSensitiveData], [initialize] with the same password
    derives the same key again: the salt is still in the storage. *)
Theorem initialize_after_clearSensitiveData (s0 s : Machine) (pw : jsstring)
    (sessionStorage : gmap jsstring jsstring) :
  initialize pw s0 = (Ok true, s) →
  ∃ s', initialize pw (clearSensitiveData s sessionStorage).1 = (Ok true, s')
        ∧ masterKey s' = masterKey s
        ∧ localStorage s' = localStorage s.
Proof.
  intros Hinit.
  destruct (initialize_true_inv _ _ _ Hinit)
    as (_ & salt & buf & Hsalt & Hne & Hbuf & Hkey).
  rewrite initialize_eq. cbn [clearSensitiveData fst localStorage].
  rewrite Hsalt. destruct salt as [|c r]; [done|]. rewrite Hbuf.
  eexists. split; [done|]. by rewrite Hkey.
Qed.



(** [encrypt] on an initialised instance, with or without a key, when
    the processing step refuses the text. *)
Lemma encrypt_refused (s : Machine) data c e :
  isInitialized s = true → processed data c = Throw e →
  encrypt data c s = (Throw e, logged s [EvConsoleError e]).
Proof.
  intros Hinit Htext. destruct (masterKey s) as [k|] eqn:Hkey.
  - rewrite (encrypt_ready s k) by done. by rewrite Htext.
  - rewrite encrypt_without_key by done. by rewrite Htext.
Qed.

(** X23.  [storeEncryptedLogs] does nothing on an instance that is not
    initialised.  On an initialised one, with or without a key, a log
    with an entry is never stored: its JSON text repeats the two
    characters that end a key, the compression pass inside [encrypt]
    refuses it, and the InvalidCharacterError goes to the caller before
    a nonce is drawn or anything is written.  After [clearSensitiveData]
    no log at all is stored: the call is not skipped, and a text the
    compression pass accepts makes [encrypt] fail with a TypeError for
    want of a key. *)
Theorem storeEncryptedLogs_outcome (s : Machine) (activityLog : Value)
    (sessionStorage : gmap jsstring jsstring) :
  (isInitialized s = false → storeEncryptedLogs activityLog s = (Ok tt, s))
  ∧ (isInitialized s = true → typeof_object activityLog = true →
     ∀ level rest,
       JSON_stringify activityLog = log_head level ++ rest →
       N.of_nat (length level) ≤ 65000 →
       storeEncryptedLogs activityLog s
       = (Throw InvalidCharacterError,
          logged s [EvConsoleError InvalidCharacterError]))
  ∧ (isInitialized s = true →
     let locked := (clearSensitiveData s sessionStorage).1 in
     (storeEncryptedLogs activityLog locked).1
     = Throw (match processed activityLog true with
              | Ok _ => TypeError
              | Throw e => e
              end)
     ∧ localStorage (storeEncryptedLogs activityLog locked).2
       = localStorage s).
Proof.
  split; [|split].
  - intros Hinit. unfold storeEncryptedLogs, mbind, M_bind, get.
    by rewrite Hinit.
  - intros Hinit Hobject level rest Htext Hlen.
    unfold storeEncryptedLogs, mbind, M_bind, get. rewrite Hinit.
    rewrite (encrypt_refused s activityLog true InvalidCharacterError);
      [done | done |].
    unfold processed, dataString. rewrite Hobject, Htext.
    destruct (log_head_repeats level) as [Hrepeat Hhead].
    apply compress_repeat_throws; [|done].
    rewrite Hhead. lia.
  - intros Hinit locked.
    unfold storeEncryptedLogs, mbind, M_bind, get.
    assert (isInitialized locked = true) as -> by done.
    rewrite (encrypt_without_key locked) by done.
    by destruct (processed activityLog true).
Qed.

Variable Object_entries_data : Value → Outcome (list (jsstring * jsstring)).

(** X24.  [restoreBackup] never lets an error out.  When the backup does not
    decrypt, or decrypts to a value without entries, it returns [false]
    and the storage is as before; on an instance that is not initialised
    that is all it can do. *)
Theorem restoreBackup_rejects (s : Machine) backupData :
  (∀ e s1, decrypt backupData true s = (Throw e, s1) →
     restoreBackup Object_entries_data backupData s
     = (Ok false, logged s1 [EvConsoleError e])
     ∧ localStorage s1 = localStorage s)
  ∧ (∀ backup s1 e, decrypt backupData true s = (Ok backup, s1) →
       Object_entries_data backup = Throw e →
       restoreBackup Object_entries_data backupData s
       = (Ok false, logged s1 [EvConsoleError e])
       ∧ localStorage s1 = localStorage s)
  ∧ (isInitialized s = false →
     restoreBackup Object_entries_data backupData s
     = (Ok false, logged s [EvConsoleError NotInitializedError])).
Proof.
  pose proof (decrypt_frame s backupData true) as (_ & _ & Hls & _).
  split; [|split].
  - intros e s1 Hdec. rewrite Hdec in Hls. split; [|done].
    unfold restoreBackup, try_catch, mbind, M_bind. by rewrite Hdec.
  - intros backup s1 e Hdec Hentries. rewrite Hdec in Hls. split; [|done].
    unfold restoreBackup, try_catch, mbind, M_bind, lift.
    by rewrite Hdec, Hentries.
  - intros Hinit.
    assert (decrypt backupData true s = (Throw NotInitializedError, s)) as Hdec
      by (unfold decrypt, mbind, M_bind, get, throw; by rewrite Hinit).
    unfold restoreBackup, try_catch, mbind, M_bind. by rewrite Hdec.
Qed.

(** The number of keys of a storage that start with [sec_]. *)
Lemma count_insert_fresh (m : gmap jsstring jsstring) k v :
  m !! k = None → startsWith (jstr "sec_") k = true →
  length (filter (λ k, startsWith (jstr "sec_") k = true)
             (Object_keys (<[k := v]> m)))
  = S (length (filter (λ k, startsWith (jstr "sec_") k = true)
                 (Object_keys m))).
Proof.
  intros Hnone Hsec. unfold Object_keys.
  rewrite map_to_list_insert by done. cbn [fmap list_fmap].
  by rewrite filter_cons_True.
Qed.

Lemma count_insert_present (m : gmap jsstring jsstring) k v :
  is_Some (m !! k) →
  length (filter (λ k, startsWith (jstr "sec_") k = true)
             (Object_keys (<[k := v]> m)))
  = length (filter (λ k, startsWith (jstr "sec_") k = true)
              (Object_keys m)).
Proof.
  intros [old Hold]. unfold Object_keys.
  rewrite <- (insert_delete_eq m k v).
  rewrite <- (insert_id m k old) at 2 by done.
  rewrite <- (insert_delete_eq m k old).
  rewrite !map_to_list_insert by apply lookup_delete_eq.
  cbn [fmap list_fmap]. by destruct (decide (startsWith (jstr "sec_") k = true));
    rewrite ?filter_cons_True, ?filter_cons_False by done.
Qed.

Lemma count_delete_present (m : gmap jsstring jsstring) k :
  is_Some (m !! k) → startsWith (jstr "sec_") k = true →
  length (filter (λ k, startsWith (jstr "sec_") k = true) (Object_keys m))
  = S (length (filter (λ k, startsWith (jstr "sec_") k = true)
                 (Object_keys (delete k m)))).
Proof.
  intros [old Hold] Hsec.
  rewrite <- (insert_id m k old) at 1 by done.
  rewrite <- (insert_delete_eq m k old).
  by rewrite count_insert_fresh by (done || apply lookup_delete_eq).
Qed.

(** X25.  [secureItemsCount] of [getStats] follows the store: a successful
    [secureStore] adds one when the key is new and nothing when it is
    overwritten, and [secureDelete] takes one away when the key was
    there. *)
Theorem getStats_secureItemsCount (s : Machine) key (v : Value) :
  let count (m : Machine) := stats_secureItemsCount (getStats m) in
  (∀ s1, secureStore key v s = (Ok true, s1) →
     count s1 = if decide (is_Some (localStorage s !! sec_ key))
                then count s else S (count s))
  ∧ count s = if decide (is_Some (localStorage s !! sec_ key))
              then S (count (secureDelete key s).2)
              else count (secureDelete key s).2.
Proof.
  cbn [getStats stats_secureItemsCount]. split.
  - intros s1 Hstore.
    destruct (secureStore_true_inv _ _ _ _ Hstore)
      as (k & text & _ & _ & _ & ->).
    cbn [localStorage]. case_decide as Hpresent.
    + by apply count_insert_present.
    + apply count_insert_fresh; [|apply sec_startsWith].
      by apply eq_None_not_Some.
  - rewrite secureDelete_eq. cbn [snd localStorage]. case_decide as Hpresent.
    + apply count_delete_present; [done | apply sec_startsWith].
    + by rewrite delete_id by (by apply eq_None_not_Some).
Qed.

End DeleteMoreFacts.

(** * The further properties on concrete inputs *)
Module ConcreteMore.
Import Reference ReferenceMore ReferenceFacts Concrete.
#[local] Existing Instance platform.

Lemma abcd_compressible : compressible (jstr "abcd").
Proof.
  split; [vm_compute; discriminate|].
  split; apply (bool_decide_unpack _); vm_compute; exact I.
Qed.

Lemma helo_short : N.of_nat (length (jstr "helo")) ≤ 65280.
Proof. vm_compute. discriminate. Qed.

Lemma helo_16bit : Forall (λ c, c < 65536) (jstr "helo").
Proof. apply (bool_decide_unpack _). vm_compute. exact I. Qed.

Lemma password_initializes :
  initialize (jstr "correct horse battery staple") fresh = (Ok true, ready).
Proof. apply run_eq. vm_compute. reflexivity. Qed.

Lemma helo_is_stored :
  secureStore (jstr "k") (RStr (jstr "helo")) ready = (Ok true, stored).
Proof. apply run_eq. vm_compute. reflexivity. Qed.

Lemma compress_cases_helo :
  (jstr "helo" = [] ∧ compress (jstr "helo") = Throw TypeError)
  ∨ (compressible (jstr "helo")
     ∧ compress (jstr "helo") = Ok (Base64.encode (jstr "helo")))
  ∨ (jstr "helo" ≠ [] ∧ ¬ compressible (jstr "helo")
     ∧ compress (jstr "helo") = Throw InvalidCharacterError).
Proof. exact (compress_cases (jstr "helo") helo_short helo_16bit). Defined.

Lemma compress_decompress_helo :
  ∃ compressed, compress (jstr "helo") = Ok compressed
                ∧ decompress compressed = Ok (jstr "helo").
Proof. exact (compress_decompress (jstr "helo") helo_compressible). Defined.

Lemma compress_never_shrinks_helo :
  length (jstr "aGVsbw==") = (4 * ((length (jstr "helo") + 2) / 3))%nat
  ∧ (length (jstr "helo") < length (jstr "aGVsbw=="))%nat.
Proof.
  apply (compress_never_shrinks (jstr "helo") (jstr "aGVsbw==")
           helo_short helo_16bit).
  vm_compute. reflexivity.
Defined.

Lemma verifyIntegrity_format_abc :
  Forall (λ c, is_lower_hex c = true) (generateHash r_digest (jstr "abc"))
  ∧ length (generateHash r_digest (jstr "abc"))
    = (2 * length (r_digest (TextEncoder_encode (jstr "abc"))))%nat.
Proof.
  apply (verifyIntegrity_format r_digest (jstr "abc")
           (generateHash r_digest (jstr "abc"))).
  vm_compute. reflexivity.
Defined.

Lemma initialize_outcome_bad_salt :
  initialize (jstr "pw") bad_salt
  = (Ok false, logged bad_salt [EvConsoleError InvalidCharacterError]).
Proof.
  destruct (initialize_outcome bad_salt (jstr "pw")) as (_ & Hfalse & _).
  destruct (Hfalse (initialize (jstr "pw") bad_salt).2) as [Hs' _].
  - apply run_eq. vm_compute. reflexivity.
  - rewrite <- Hs'. apply run_eq. vm_compute. reflexivity.
Defined.

Lemma initialize_same_key_stored :
  ∃ s2', initialize (jstr "correct horse battery staple") stored = (Ok true, s2')
         ∧ masterKey s2'
           = masterKey (initialize (jstr "correct horse battery staple") ready).2
         ∧ isInitialized s2' = true
         ∧ localStorage s2' = localStorage stored.
Proof.
  apply (initialize_same_key ready stored _
           (jstr "correct horse battery staple") stored_salt).
  - vm_compute. reflexivity.
  - vm_compute. reflexivity.
  - vm_compute. discriminate.
  - apply run_eq. vm_compute. reflexivity.
Defined.

Lemma secureStore_secureRetrieve_helo :
  ∃ s2, secureRetrieve (jstr "k") stored = (Ok (RStr (jstr "helo")), s2).
Proof.
  apply (secureStore_secureRetrieve ready stored (jstr "k") (RStr (jstr "helo"))
           tag_length opens utf8_ascii).
  - vm_compute. reflexivity.
  - exact helo_compressible.
  - exact helo_is_stored.
Defined.

Lemma text_1234_compressible : compressible (jstr "1234").
Proof.
  split; [vm_compute; discriminate|].
  split; apply (bool_decide_unpack _); vm_compute; exact I.
Qed.

Lemma text_1234_reads_as_number :
  parse_or_raw (dataString (RStr (jstr "1234"))) = RNum 1234.
Proof. vm_compute. reflexivity. Qed.

Lemma secureStore_overwrite_abcd :
  ((∃ envelope2,
      localStorage stored_twice
      = <[sec_ (jstr "k") := envelope2]> (localStorage ready))
   ∧ ∃ s3, secureRetrieve (jstr "k") stored_twice
            = (Ok (RStr (jstr "abcd")), s3))
  ∧ ∃ s3, secureRetrieve (jstr "k")
            (secureStore (P:=platform) (jstr "k") (RStr (jstr "1234")) stored).2
          = (Ok (RNum 1234), s3).
Proof.
  split.
  - destruct (secureStore_overwrite ready stored stored_twice (jstr "k")
                (RStr (jstr "helo")) (RStr (jstr "abcd")))
      as [(envelope2 & s' & _ & Hstorage) Hretrieve].
    + exact helo_is_stored.
    + apply run_eq. vm_compute. reflexivity.
    + split; [by exists envelope2|].
      destruct (Hretrieve tag_length opens utf8_ascii abcd_compressible)
        as [_ Hback].
      apply Hback. vm_compute. reflexivity.
  - destruct (secureStore_overwrite ready stored
                (secureStore (P:=platform) (jstr "k") (RStr (jstr "1234")) stored).2
                (jstr "k") (RStr (jstr "helo")) (RStr (jstr "1234")))
      as [_ Hretrieve].
    + exact helo_is_stored.
    + apply run_eq. vm_compute. reflexivity.
    + destruct (Hretrieve tag_length opens utf8_ascii text_1234_compressible)
        as [[s3 Hraw] _].
      rewrite text_1234_reads_as_number in Hraw. exists s3. exact Hraw.
Defined.

Lemma retrieve_in_new_session_helo :
  (∃ s3,
     initialize (jstr "correct horse battery staple")
       (constructor (localStorage stored) stuck) = (Ok true, s3)
     ∧ masterKey s3 = masterKey ready
     ∧ ∃ s4, secureRetrieve (jstr "k") s3 = (Ok (RStr (jstr "helo")), s4))
  ∧ ∃ s3,
      initialize (jstr "correct horse battery staple")
        (constructor
           (localStorage (secureStore (P:=platform) (jstr "k") (RStr (jstr "1234")) ready).2)
           stuck) = (Ok true, s3)
      ∧ ∃ s4, secureRetrieve (jstr "k") s3 = (Ok (RNum 1234), s4).
Proof.
  split.
  - destruct (retrieve_in_new_session fresh ready stored
                (jstr "correct horse battery staple") (jstr "k")
                (RStr (jstr "helo")) stuck)
      as (s3 & Hinit & Hkey & _ & Hretrieve).
    + exact password_initializes.
    + exact helo_is_stored.
    + exists s3. split; [exact Hinit|]. split; [exact Hkey|].
      destruct (Hretrieve tag_length opens utf8_ascii helo_compressible)
        as [_ Hback].
      apply Hback. vm_compute. reflexivity.
  - destruct (retrieve_in_new_session fresh ready
                (secureStore (P:=platform) (jstr "k") (RStr (jstr "1234")) ready).2
                (jstr "correct horse battery staple") (jstr "k")
                (RStr (jstr "1234")) stuck)
      as (s3 & Hinit & _ & _ & Hretrieve).
    + exact password_initializes.
    + apply run_eq. vm_compute. reflexivity.
    + exists s3. split; [exact Hinit|].
      destruct (Hretrieve tag_length opens utf8_ascii text_1234_compressible)
        as [[s4 Hraw] _].
      rewrite text_1234_reads_as_number in Hraw. exists s4. exact Hraw.
Defined.

Lemma secureStore_true_iff_helo :
  (secureStore (jstr "k") (RStr (jstr "helo")) ready).1 = Ok true
  ↔ compressible (dataString (RStr (jstr "helo"))).
Proof.
  exact (secureStore_true_iff ready ready_key (jstr "k") (RStr (jstr "helo"))
           ready_is_initialized ready_has_key helo_short helo_16bit).
Defined.

Lemma secureStore_failure_fresh :
  secureStore (jstr "k") (RStr (jstr "helo")) fresh
  = (Ok false, logged fresh [EvConsoleError NotInitializedError]).
Proof.
  destruct (secureStore_failure fresh (jstr "k") (RStr (jstr "helo")))
    as (_ & _ & Huninit).
  apply Huninit. reflexivity.
Defined.

Lemma secureRetrieve_read_only_fresh :
  (secureRetrieve (jstr "k") fresh).1 = Ok RNull.
Proof.
  destruct (secureRetrieve_read_only fresh (jstr "k")) as (_ & Huninit).
  apply Huninit. reflexivity.
Defined.

Lemma decrypt_malformed_text :
  decrypt (jstr "!!!") true ready
  = (Throw InvalidCharacterError,
     logged ready [EvConsoleError InvalidCharacterError]).
Proof.
  destruct (decrypt_malformed ready ready_key (jstr "!!!") true
              ready_is_initialized ready_has_key) as (Htext & _).
  apply (Htext InvalidCharacterError). vm_compute. reflexivity.
Defined.

Lemma secureDelete_other_keys_stored :
  localStorage (secureDelete (jstr "other") stored).2 !! sec_ (jstr "k")
  = localStorage stored !! sec_ (jstr "k")
  ∧ (secureRetrieve (jstr "k") (secureDelete (jstr "other") stored).2).1
    = (secureRetrieve (jstr "k") stored).1.
Proof.
  apply (secureDelete_other_keys stored (jstr "other") (jstr "k")).
  intros Heq. vm_compute in Heq. discriminate.
Defined.

Lemma clearSensitiveData_locks_ready :
  ((encrypt (RStr (jstr "helo")) true (clearSensitiveData ready ∅).1).1
   = Throw TypeError
   ∧ drawn (encrypt (RStr (jstr "helo")) true (clearSensitiveData ready ∅).1).2
     = (drawn ready + 12)%nat)
  ∧ ((encrypt (RStr (jstr "aaa")) true (clearSensitiveData ready ∅).1).1
     = Throw InvalidCharacterError
     ∧ drawn (encrypt (RStr (jstr "aaa")) true (clearSensitiveData ready ∅).1).2
       = drawn ready)
  ∧ (secureStore (jstr "k") (RStr (jstr "helo")) (clearSensitiveData ready ∅).1).1
    = Ok false
  ∧ (secureRetrieve (jstr "k") (clearSensitiveData ready ∅).1).1 = Ok RNull.
Proof.
  destruct (clearSensitiveData_locks ready ∅ ready_is_initialized)
    as (_ & _ & _ & Hencrypt & _ & Hstore & Hretrieve).
  assert (Hhelo : processed (RStr (jstr "helo")) true
                  = Ok (Base64.encode (jstr "helo")))
    by (vm_compute; reflexivity).
  assert (Haaa : processed (RStr (jstr "aaa")) true
                 = Throw InvalidCharacterError)
    by (vm_compute; reflexivity).
  pose proof (Hencrypt (RStr (jstr "helo")) true) as H1.
  rewrite Hhelo in H1.
  pose proof (Hencrypt (RStr (jstr "aaa")) true) as H2.
  rewrite Haaa in H2.
  split; [exact H1|]. split; [exact H2|].
  split; [apply Hstore | apply Hretrieve].
Defined.

Lemma initialize_after_clearSensitiveData_ready :
  ∃ s', initialize (jstr "correct horse battery staple")
          (clearSensitiveData ready ∅).1 = (Ok true, s')
        ∧ masterKey s' = masterKey ready
        ∧ localStorage s' = localStorage ready.
Proof.
  exact (initialize_after_clearSensitiveData fresh ready
           (jstr "correct horse battery staple") ∅ password_initializes).
Defined.

(** Every log [logActivity] leaves has an entry, and its text begins
    as [log_head] says. *)
Lemma logActivity_not_empty (logEntry : LogEntry) (activityLog : list LogEntry) :
  logActivity logEntry activityLog ≠ [].
Proof.
  unfold logActivity. cbv zeta.
  destruct (Nat.ltb_spec 1000 (length (activityLog ++ [logEntry]))) as [Hlong|_].
  - destruct (activityLog ++ [logEntry]) as [|e [|e' r]]; cbn in *; [lia | lia | done].
  - by destruct activityLog.
Qed.

Lemma log_text_head (e : LogEntry) (entries : list LogEntry) :
  ∃ rest, log_text (e :: entries) = log_head (quoted (entry_level e)) ++ rest.
Proof.
  unfold log_text, log_head, entry_text, member, quoted.
  change (jstr "[{") with (jstr "[" ++ jstr "{").
  destruct entries as [|e' entries]; cbn [map join_comma app];
    eexists; rewrite <- ?app_assoc; reflexivity.
Qed.

Lemma logActivity_log_head (logEntry : LogEntry) (activityLog : list LogEntry) :
  ∃ level rest,
    JSON_stringify (Platform:=log_platform)
      (LLog (logActivity logEntry activityLog))
    = log_head level ++ rest.
Proof.
  pose proof (logActivity_not_empty logEntry activityLog) as Hne.
  destruct (logActivity logEntry activityLog) as [|e entries]; [done|].
  destruct (log_text_head e entries) as [rest Hrest]. by eexists _, rest.
Qed.

Lemma storeEncryptedLogs_outcome_wipe :
  storeEncryptedLogs (P:=log_platform) wipe_log ready_log
  = (Throw InvalidCharacterError,
     logged ready_log [EvConsoleError InvalidCharacterError])
  ∧ (storeEncryptedLogs (P:=log_platform) (LLog [])
       (clearSensitiveData ready_log ∅).1).1
    = Throw TypeError.
Proof.
  assert (Hready : isInitialized ready_log = true)
    by (vm_compute; reflexivity).
  split.
  - destruct (storeEncryptedLogs_outcome (P:=log_platform) ready_log wipe_log ∅)
      as (_ & Hentry & _).
    apply (Hentry Hready eq_refl (quoted (jstr "CRITICAL"))
             (drop (length (log_head (quoted (jstr "CRITICAL"))))
                (log_text (logActivity wipe_entry [])))).
    + vm_compute. reflexivity.
    + vm_compute. discriminate.
  - destruct (storeEncryptedLogs_outcome (P:=log_platform) ready_log (LLog []) ∅)
      as (_ & _ & Hlocked).
    destruct (Hlocked Hready) as [Hthrow _].
    assert (Hempty : processed (P:=log_platform) (LLog []) true
                     = Ok (Base64.encode (jstr "[]")))
      by (vm_compute; reflexivity).
    rewrite Hempty in Hthrow. exact Hthrow.
Defined.

Lemma restoreBackup_rejects_fresh :
  restoreBackup (P:=platform) r_entries (jstr "AAAA") fresh
  = (Ok false, logged fresh [EvConsoleError NotInitializedError]).
Proof.
  destruct (restoreBackup_rejects (P:=platform) r_entries fresh (jstr "AAAA"))
    as (_ & _ & Huninit).
  apply Huninit. reflexivity.
Defined.

Lemma getStats_secureItemsCount_stored :
  stats_secureItemsCount (getStats stored)
  = S (stats_secureItemsCount (getStats ready)).
Proof.
  destruct (getStats_secureItemsCount ready (jstr "k") (RStr (jstr "helo")))
    as (Hstore & _).
  rewrite (Hstore stored helo_is_stored).
  apply decide_False. intros [x Hx]. vm_compute in Hx. discriminate.
Defined.

End ConcreteMore.
